(** * Cedra TypeScript SDK: waiting for finality, single-key accounts, BCS

    A shallow embedding of
      - src/internal/transaction.ts  (isTransactionPending, waitForTransaction,
        waitForIndexer, fillBlockTransactions),
      - src/internal/staking.ts (fundAccount),
      - src/account/SingleKeyAccount.ts (constructor, generate,
        fromDerivationPath, fromEd25519Account, sign, signTransaction, ...),
    and a model of the BCS stream primitives the specification describes.

    Conventions.
      - A JavaScript [number] holding a time (timeoutSecs, timeElapsed,
        backoffIntervalMs) is an IEEE 754 binary64 value, Rocq's primitive
        [float]; [+], [*], [/] and [<=?] on it are the processor's
        operations (round to nearest, ties to even), the ones JavaScript
        uses.  HTTP status codes, ledger versions and clock readings in
        whole milliseconds are [Z].
      - An [await]ed network call is a read of the next element of the
        transport's response sequence.
      - A thrown value is data: a function that may throw returns a sum. *)

From Stdlib Require Import ZArith NArith QArith Qpower Qround Lia Lqa List String Bool.
From Stdlib.Strings Require Import Byte.
From Stdlib Require Import Floats.
From Equations Require Import Equations.
Import ListNotations.

Set Implicit Arguments.
Set Warnings "-register-all".
Set Warnings "-inexact-float".

(* ================================================================== *)
(** * Part I: definitions                                               *)
(* ================================================================== *)

Module Transaction.

Local Open Scope float_scope.

(** ** Data *)

(** Modelled from the spec: src/types is not among the sources; section 6
    says a transaction representation is "tagged by
    pending/user/genesis/block-metadata variant".  Only the comparison with
    [Pending] is ever made by the code below. *)
Inductive TransactionResponseType : Type :=
| Pending
| User
| Genesis
| BlockMetadata.

Definition TransactionResponseType_eqb (a b : TransactionResponseType) : bool :=
  match a, b with
  | Pending, Pending | User, User | Genesis, Genesis
  | BlockMetadata, BlockMetadata => true
  | _, _ => false
  end.

(** The fields of a [TransactionResponse] that the code reads. *)
Record TransactionResponse : Type := mkTxn {
  type : TransactionResponseType;
  hash : string;
  success : bool;
  vm_status : string
}.

(** [lastTxn.type === TransactionResponseType.Pending] *)
Definition isPendingType (t : TransactionResponse) : bool :=
  TransactionResponseType_eqb (type t) Pending.

(** A value thrown by a network call.  The code looks at two things only:
    whether it is an instance of [CedraApiError], and its [status] property
    (a number for a [CedraApiError]; present or not on anything else). *)
Inductive FetchError : Type :=
| CedraApiError (status : Z) (message : string)
| OtherError (status : option Z) (message : string).

(** [e instanceof CedraApiError] *)
Definition isCedraApiError (e : FetchError) : bool :=
  match e with CedraApiError _ _ => true | OtherError _ _ => false end.

(** [e?.status] *)
Definition statusOf (e : FetchError) : option Z :=
  match e with CedraApiError s _ => Some s | OtherError s _ => s end.

(** What an awaited request settles to. *)
Inductive Response : Type :=
| Resolved (t : TransactionResponse)
| Rejected (e : FetchError).

(** The text of the two errors built by [waitForTransaction]; the template
    literals are kept as their parameters. *)
Inductive ErrorMessage : Type :=
| FetchFailedAndTimedOut (transactionHash : string) (timeoutSecs : float)
    (* `Fetching transaction ${hash} failed and timed out after ${t} seconds` *)
| TimedOutInPendingState (transactionHash : string) (timeoutSecs : float)
    (* `Transaction ${hash} timed out in pending state after ${t} seconds` *)
| FailedWithAnError (transactionHash : string) (vm_status : string).
    (* `Transaction ${hash} failed with an error: ${vm_status}` *)

Inductive Thrown : Type :=
| Raised (e : FetchError)
| WaitForTransactionError (message : ErrorMessage)
    (lastSubmittedTransaction : option TransactionResponse)
| FailedTransactionError (message : ErrorMessage)
    (transaction : TransactionResponse).

Inductive Outcome (A : Type) : Type :=
| Return (a : A)
| Throw (e : Thrown).
Arguments Return {A} a.
Arguments Throw {A} e.

(** What the function does to the outside world, in order. *)
Inductive Event : Type :=
| GetTransactionByHash      (* GET transactions/by_hash/<hash> *)
| LongWaitForTransaction    (* GET transactions/wait_by_hash/<hash> *)
| Sleep (ms : float).

Definition isRequest (ev : Event) : bool :=
  match ev with Sleep _ => false | _ => true end.


(** The environment of one call: the k-th request made (of either kind)
    settles to [responses k]; [longWaitMs] is the number
    [Date.now() - startTime] measured around the long poll (a whole number
    of milliseconds, negative when the clock was set back meanwhile). *)
Record Env : Type := mkEnv {
  responses : nat -> Response;
  longWaitMs : float
}.

Record WaitForTransactionOptions : Type := mkOptions {
  opt_timeoutSecs : option float;
  opt_checkSuccess : option bool
}.

(** The local variables of [waitForTransaction], with the number of
    requests made so far and the trace of events. *)
Record State : Type := mkState {
  isPending : bool;
  timeElapsed : float;
  lastTxn : option TransactionResponse;
  lastError : option FetchError;
  backoffIntervalMs : float;
  requests : nat;
  trace : list Event
}.

Definition backoffMultiplier : float := 1.5.

Definition initialState : State :=
  {| isPending := true; timeElapsed := 0; lastTxn := None; lastError := None;
     backoffIntervalMs := 200; requests := 0; trace := [] |}.

(** ** isTransactionPending *)

Definition isTransactionPending (r : Response) : Outcome bool :=
  match r with
  | Resolved transaction => Return (isPendingType transaction)
  | Rejected e =>
      match statusOf e with
      | Some s => if (s =? 404)%Z then Return true else Throw (Raised e)
      | None => Throw (Raised e)
      end
  end.

(** ** waitForTransaction *)

Definition isRequestError (status : Z) : bool :=
  negb (status =? 404)%Z && (400 <=? status)%Z && (status <? 500)%Z.

(** [handleAPIError]: the new state, and the value thrown if it throws. *)
Definition handleAPIError (st : State) (e : FetchError)
  : State * option FetchError :=
  match e with
  | OtherError _ _ => (st, Some e)
  | CedraApiError status _ =>
      let st' := {| isPending := isPending st; timeElapsed := timeElapsed st;
                    lastTxn := lastTxn st; lastError := Some e;
                    backoffIntervalMs := backoffIntervalMs st;
                    requests := requests st; trace := trace st |} in
      if isRequestError status then (st', Some e) else (st', None)
  end.

(** Issue one request: it is logged and takes the next response. *)
Definition issue (ev : Event) (st : State) : State :=
  {| isPending := isPending st; timeElapsed := timeElapsed st;
     lastTxn := lastTxn st; lastError := lastError st;
     backoffIntervalMs := backoffIntervalMs st;
     requests := S (requests st); trace := trace st ++ [ev] |}.

(** [lastTxn = await ...; isPending = lastTxn.type === Pending] *)
Definition received (t : TransactionResponse) (st : State) : State :=
  {| isPending := isPendingType t; timeElapsed := timeElapsed st;
     lastTxn := Some t; lastError := lastError st;
     backoffIntervalMs := backoffIntervalMs st;
     requests := requests st; trace := trace st |}.

(** [try { lastTxn = await req(); isPending = ... } catch (e) { handleAPIError(e) }] *)
Definition tryFetch (env : Env) (ev : Event) (st : State)
  : State * option FetchError :=
  match responses env (requests st) with
  | Resolved t => (received t (issue ev st), None)
  | Rejected e => handleAPIError (issue ev st) e
  end.

(** [timeElapsed = (Date.now() - startTime) / 1000] *)
Definition setTimeElapsed (t : float) (st : State) : State :=
  {| isPending := isPending st; timeElapsed := t;
     lastTxn := lastTxn st; lastError := lastError st;
     backoffIntervalMs := backoffIntervalMs st;
     requests := requests st; trace := trace st |}.

(** [await sleep(backoffIntervalMs); timeElapsed += backoffIntervalMs / 1000;
     backoffIntervalMs *= backoffMultiplier] *)
Definition sleepAndBackOff (st : State) : State :=
  {| isPending := isPending st;
     timeElapsed := timeElapsed st + backoffIntervalMs st / 1000;
     lastTxn := lastTxn st; lastError := lastError st;
     backoffIntervalMs := backoffIntervalMs st * backoffMultiplier;
     requests := requests st;
     trace := trace st ++ [Sleep (backoffIntervalMs st)] |}.

(** How the part of the function before the final checks ends. *)
Inductive Polling : Type :=
| Exited (st : State)                 (* the loop was left, normally *)
| Threw (e : FetchError) (st : State) (* handleAPIError threw e *)
| OutOfFuel (st : State).

(** [while (isPending) { ... }]; [fuel] bounds the number of full
    iterations (fetch, then sleep or break).  [timeElapsed >= timeoutSecs]
    is the comparison of two numbers: false when either is NaN. *)
Fixpoint pollLoop (env : Env) (timeoutSecs : float) (fuel : nat) (st : State)
  : Polling :=
  if negb (isPending st) then Exited st
  else if timeoutSecs <=? timeElapsed st then Exited st
  else
    match fuel with
    | O => OutOfFuel st
    | S fuel' =>
        match responses env (requests st) with
        | Resolved t =>
            let st1 := received t (issue GetTransactionByHash st) in
            if negb (isPending st1) then Exited st1
            else pollLoop env timeoutSecs fuel' (sleepAndBackOff st1)
        | Rejected e =>
            match handleAPIError (issue GetTransactionByHash st) e with
            | (st1, Some e') => Threw e' st1
            | (st1, None) => pollLoop env timeoutSecs fuel' (sleepAndBackOff st1)
            end
        end
    end.

(** The long poll, made once when the first fetch left [isPending] true. *)
Definition longWaitOnce (env : Env) (st : State) : State * option FetchError :=
  if isPending st then
    match tryFetch env LongWaitForTransaction st with
    | (st1, Some e) => (st1, Some e)
    | (st1, None) => (setTimeElapsed (longWaitMs env / 1000) st1, None)
    end
  else (st, None).

(** Everything up to and including the loop. *)
Definition polling (env : Env) (timeoutSecs : float) (fuel : nat) : Polling :=
  match tryFetch env GetTransactionByHash initialState with
  | (st1, Some e) => Threw e st1
  | (st1, None) =>
      match longWaitOnce env st1 with
      | (st2, Some e) => Threw e st2
      | (st2, None) => pollLoop env timeoutSecs fuel st2
      end
  end.

(** The checks after the loop. *)
Definition conclude (transactionHash : string) (timeoutSecs : float)
    (checkSuccess : bool) (st : State) : Outcome TransactionResponse :=
  match lastTxn st with
  | None =>
      match lastError st with
      | Some e => Throw (Raised e)
      | None =>
          Throw (WaitForTransactionError
                   (FetchFailedAndTimedOut transactionHash timeoutSecs) None)
      end
  | Some t =>
      if isPendingType t then
        Throw (WaitForTransactionError
                 (TimedOutInPendingState transactionHash timeoutSecs) (Some t))
      else if negb checkSuccess then Return t
      else if negb (success t) then
        Throw (FailedTransactionError
                 (FailedWithAnError transactionHash (vm_status t)) t)
      else Return t
  end.

Section WaitForTransaction.

(** [DEFAULT_TXN_TIMEOUT_SEC] of src/utils/const, which is not among the
    sources. *)
Variable DEFAULT_TXN_TIMEOUT_SEC : float.

(** [options?.timeoutSecs ?? DEFAULT_TXN_TIMEOUT_SEC] *)
Definition timeoutSecsOf (options : option WaitForTransactionOptions) : float :=
  match options with
  | Some o => match opt_timeoutSecs o with
              | Some t => t
              | None => DEFAULT_TXN_TIMEOUT_SEC
              end
  | None => DEFAULT_TXN_TIMEOUT_SEC
  end.

(** [options?.checkSuccess ?? true] *)
Definition checkSuccessOf (options : option WaitForTransactionOptions) : bool :=
  match options with
  | Some o => match opt_checkSuccess o with Some b => b | None => true end
  | None => true
  end.

(** The result and the final state (for its trace); [None] when [fuel]
    iterations of the loop were not enough. *)
Definition waitForTransaction (env : Env) (fuel : nat)
    (transactionHash : string) (options : option WaitForTransactionOptions)
  : option (Outcome TransactionResponse * State) :=
  let timeoutSecs := timeoutSecsOf options in
  let checkSuccess := checkSuccessOf options in
  match polling env timeoutSecs fuel with
  | Exited st => Some (conclude transactionHash timeoutSecs checkSuccess st, st)
  | Threw e st => Some (Throw (Raised e), st)
  | OutOfFuel _ => None
  end.

End WaitForTransaction.

(** ** Quantities the properties below are stated with *)

(** The interval slept after the k-th poll: 200 ms, multiplied by 1.5 once
    for each poll before it, as the loop does it. *)
Fixpoint backoffAt (k : nat) : float :=
  match k with
  | O => 200
  | S k' => backoffAt k' * backoffMultiplier
  end.

(** The value of [timeElapsed] after [k] polls, from [t0] after the long
    poll: the sleeps added one by one, as the loop does it. *)
Fixpoint elapsedAfter (t0 : float) (k : nat) : float :=
  match k with
  | O => t0
  | S k' => elapsedAfter t0 k' + backoffAt k' / 1000
  end.

(** The events of polls number [j], ..., [j + n - 1], each followed by its
    sleep. *)
Definition pollEvents (j n : nat) : list Event :=
  flat_map (fun k => [GetTransactionByHash; Sleep (backoffAt k)]) (seq j n).

(** The first of [k], [k+1], ..., [k + budget - 1] at which [p] holds, or
    [k + budget]. *)
Fixpoint leastSuch (p : nat -> bool) (k budget : nat) : nat :=
  match budget with
  | O => k
  | S b => if p k then k else leastSuch p (S k) b
  end.



(** The rational a finite number stands for (0 for the others). *)
Definition valueOf (x : float) : Q :=
  match Prim2SF x with
  | S754_finite s m e =>
      ((if s then -1 else 1) * inject_Z (Zpos m) * (2 # 1) ^ e)%Q
  | _ => 0%Q
  end.

(** 0.2 * (1.5^n - 1) / 0.5, in seconds, as a rational. *)
Definition geomSecs (n : nat) : Q :=
  ((1 # 5) * ((3 # 2) ^ Z.of_nat n - 1) / (1 # 2))%Q.

(** The least [n] with [timeoutSecs <= geomSecs n], over the rationals; it
    is at most [ceil (5 * timeoutSecs)]. *)
Definition pollBound (timeoutSecs : Q) : nat :=
  leastSuch (fun n => Qle_bool timeoutSecs (geomSecs n)) 0
            (Z.to_nat (Qceiling (5 * timeoutSecs)%Q)).

Definition stateOf (r : Polling) : State :=
  match r with Exited st | Threw _ st | OutOfFuel st => st end.

Definition ranOut (r : Polling) : bool :=
  match r with OutOfFuel _ => true | _ => false end.

End Transaction.

(* ------------------------------------------------------------------ *)

Module Account.

(** A call that may throw: its value, or what it threw. *)
Inductive Result (E A : Type) : Type :=
| Ok (a : A)
| Err (e : E).
Arguments Ok {E A} a.
Arguments Err {E A} e.

Definition bind {E A B : Type} (r : Result E A) (k : A -> Result E B)
  : Result E B :=
  match r with Ok a => k a | Err e => Err e end.

(** [HexInput = string | Uint8Array] *)
Inductive HexInput : Type :=
| HexString (s : string)
| HexBytes (b : list byte).

(** The [scheme] argument as the code sees it (the enum is declared in
    ../types, which is not among the sources): one of the two members the
    [switch] names, or any other run-time value, of which the code uses
    only its rendering in the template literal [`${scheme}`]. *)
Inductive SigningSchemeInput : Type :=
| Ed25519
| Secp256k1Ecdsa
| OtherScheme (rendered : string).

(** The classes this file imports from ../core and ../transactions, which
    are not among the sources: their types and the methods called here. *)
Class Collaborators : Type := {
  Ed25519PrivateKey : Type;
  Secp256k1PrivateKey : Type;
  PublicKey : Type;
  Signature : Type;
  AnyPublicKey : Type;
  AnySignature : Type;
  AuthenticationKey : Type;
  AccountAddress : Type;
  AnyRawTransaction : Type;
  (** what a collaborator throws *)
  Failure : Type;
  (** the state of the secure random source *)
  Entropy : Type;

  Ed25519PrivateKey_generate : Entropy -> Ed25519PrivateKey;
  Secp256k1PrivateKey_generate : Entropy -> Secp256k1PrivateKey;
  Ed25519PrivateKey_fromDerivationPath :
    string -> string -> Result Failure Ed25519PrivateKey;
  Secp256k1PrivateKey_fromDerivationPath :
    string -> string -> Result Failure Secp256k1PrivateKey;
  Ed25519PrivateKey_publicKey : Ed25519PrivateKey -> PublicKey;
  Secp256k1PrivateKey_publicKey : Secp256k1PrivateKey -> PublicKey;
  Ed25519PrivateKey_sign :
    Ed25519PrivateKey -> HexInput -> Result Failure Signature;
  Secp256k1PrivateKey_sign :
    Secp256k1PrivateKey -> HexInput -> Result Failure Signature;
  (** [new AnyPublicKey(pk)], [new AnySignature(sig)] *)
  AnyPublicKey_new : PublicKey -> AnyPublicKey;
  AnySignature_new : Signature -> AnySignature;
  authKey : AnyPublicKey -> AuthenticationKey;
  derivedAddress : AuthenticationKey -> AccountAddress;
  generateSigningMessageForTransaction : AnyRawTransaction -> list byte
}.

Section SingleKeyAccount.

Context {C : Collaborators}.

(** [PrivateKeyInput = Ed25519PrivateKey | Secp256k1PrivateKey] *)
Inductive PrivateKeyInput : Type :=
| Ed25519Key (k : Ed25519PrivateKey)
| Secp256k1Key (k : Secp256k1PrivateKey).

(** [privateKey.publicKey()] and [privateKey.sign(message)], dispatched on
    the class of the key. *)
Definition PrivateKey_publicKey (k : PrivateKeyInput) : PublicKey :=
  match k with
  | Ed25519Key k => Ed25519PrivateKey_publicKey k
  | Secp256k1Key k => Secp256k1PrivateKey_publicKey k
  end.

Definition PrivateKey_sign (k : PrivateKeyInput) (message : HexInput)
  : Result Failure Signature :=
  match k with
  | Ed25519Key k => Ed25519PrivateKey_sign k message
  | Secp256k1Key k => Secp256k1PrivateKey_sign k message
  end.

(** [AccountAddressInput = HexInput | AccountAddress] *)
Inductive AccountAddressInput : Type :=
| AddressHex (h : HexInput)
| AddressObject (a : AccountAddress).

(** [AccountAddress.from(input)], of ../core/accountAddress. *)
Variable AccountAddress_from : AccountAddressInput -> Result Failure AccountAddress.

(** JavaScript truthiness of a supplied address, as [address ? _ : _] tests
    it: of the values of the type only the empty string is falsy. *)
Definition truthy (a : AccountAddressInput) : bool :=
  match a with
  | AddressHex (HexString EmptyString) => false
  | _ => true
  end.

Record SingleKeySignerConstructorArgs : Type := mkArgs {
  arg_privateKey : PrivateKeyInput;
  arg_address : option AccountAddressInput
}.

Inductive SigningScheme : Type :=
| SchemeEd25519
| SchemeMultiEd25519
| SchemeSingleKey
| SchemeMultiKey.

Record SingleKeyAccount : Type := mkAccount {
  privateKey : PrivateKeyInput;
  publicKey : AnyPublicKey;
  accountAddress : AccountAddress;
  signingScheme : SigningScheme
}.

Record AccountAuthenticatorSingleKey : Type := mkAuthenticator {
  public_key : AnyPublicKey;
  signature : AnySignature
}.

(** What the functions of this class throw: [new Error(message)], or
    whatever a collaborator threw. *)
Inductive Thrown : Type :=
| Error (message : string)
| Propagated (f : Failure).

Definition lift {A : Type} (r : Result Failure A) : Result Thrown A :=
  match r with Ok a => Ok a | Err f => Err (Propagated f) end.

(** [constructor(args)] *)
Definition new_SingleKeyAccount (args : SingleKeySignerConstructorArgs)
  : Result Thrown SingleKeyAccount :=
  let privateKey := arg_privateKey args in
  let publicKey := AnyPublicKey_new (PrivateKey_publicKey privateKey) in
  bind
    (match arg_address args with
     | Some address =>
         if truthy address then lift (AccountAddress_from address)
         else Ok (derivedAddress (authKey publicKey))
     | None => Ok (derivedAddress (authKey publicKey))
     end)
    (fun accountAddress =>
       Ok {| privateKey := privateKey; publicKey := publicKey;
             accountAddress := accountAddress;
             signingScheme := SchemeSingleKey |}).

(** Calls that produce key material, in the order they are made. *)
Inductive KeyCall : Type :=
| Generated (scheme : SigningSchemeInput)
| Derived (scheme : SigningSchemeInput) (path mnemonic : string).

(** [const { scheme = SigningSchemeInput.Ed25519 } = args] *)
Definition schemeOrDefault (scheme : option SigningSchemeInput)
  : SigningSchemeInput :=
  match scheme with Some s => s | None => Ed25519 end.

Definition unsupportedScheme (rendered : string) : Thrown :=
  Error ("Unsupported signature scheme " ++ rendered).

(** [static generate(args = {})]: the result and the key-producing calls
    made on the way. *)
Definition generate (rnd : Entropy) (scheme : option SigningSchemeInput)
  : Result Thrown SingleKeyAccount * list KeyCall :=
  match schemeOrDefault scheme with
  | Ed25519 =>
      (new_SingleKeyAccount
         {| arg_privateKey := Ed25519Key (Ed25519PrivateKey_generate rnd);
            arg_address := None |},
       [Generated Ed25519])
  | Secp256k1Ecdsa =>
      (new_SingleKeyAccount
         {| arg_privateKey := Secp256k1Key (Secp256k1PrivateKey_generate rnd);
            arg_address := None |},
       [Generated Secp256k1Ecdsa])
  | OtherScheme rendered => (Err (unsupportedScheme rendered), [])
  end.

(** [static fromDerivationPath(args)] *)
Definition fromDerivationPath (scheme : option SigningSchemeInput)
    (path mnemonic : string)
  : Result Thrown SingleKeyAccount * list KeyCall :=
  match schemeOrDefault scheme with
  | Ed25519 =>
      (bind (lift (Ed25519PrivateKey_fromDerivationPath path mnemonic))
         (fun k => new_SingleKeyAccount
                     {| arg_privateKey := Ed25519Key k; arg_address := None |}),
       [Derived Ed25519 path mnemonic])
  | Secp256k1Ecdsa =>
      (bind (lift (Secp256k1PrivateKey_fromDerivationPath path mnemonic))
         (fun k => new_SingleKeyAccount
                     {| arg_privateKey := Secp256k1Key k; arg_address := None |}),
       [Derived Secp256k1Ecdsa path mnemonic])
  | OtherScheme rendered => (Err (unsupportedScheme rendered), [])
  end.

(** [sign(message)] *)
Definition sign (this : SingleKeyAccount) (message : HexInput)
  : Result Thrown AnySignature :=
  bind (lift (PrivateKey_sign (privateKey this) message))
       (fun s => Ok (AnySignature_new s)).

(** [signTransaction(transaction)] *)
Definition signTransaction (this : SingleKeyAccount)
    (transaction : AnyRawTransaction) : Result Thrown AnySignature :=
  sign this (HexBytes (generateSigningMessageForTransaction transaction)).

(** [signWithAuthenticator(message)] *)
Definition signWithAuthenticator (this : SingleKeyAccount) (message : HexInput)
  : Result Thrown AccountAuthenticatorSingleKey :=
  bind (sign this message)
       (fun s => Ok {| public_key := publicKey this; signature := s |}).

(** [signTransactionWithAuthenticator(transaction)] *)
Definition signTransactionWithAuthenticator (this : SingleKeyAccount)
    (transaction : AnyRawTransaction)
  : Result Thrown AccountAuthenticatorSingleKey :=
  bind (signTransaction this transaction)
       (fun s => Ok {| public_key := publicKey this; signature := s |}).

(** The fields of an [Ed25519Account] (./Ed25519Account, not among the
    sources) that [fromEd25519Account] reads. *)
Record Ed25519Account : Type := mkLegacy {
  legacy_privateKey : Ed25519PrivateKey;
  legacy_accountAddress : AccountAddress
}.

(** [static fromEd25519Account(account)] *)
Definition fromEd25519Account (account : Ed25519Account)
  : Result Thrown SingleKeyAccount :=
  new_SingleKeyAccount
    {| arg_privateKey := Ed25519Key (legacy_privateKey account);
       arg_address := Some (AddressObject (legacy_accountAddress account)) |}.

End SingleKeyAccount.

(** Whether [needle] occurs in [s]. *)
Fixpoint occursIn (needle s : string) : bool :=
  if String.prefix needle s then true
  else match s with
       | EmptyString => false
       | String _ rest => occursIn needle rest
       end.

(** An error message reports which schemes are supported when it names
    them. *)
Definition reportsSupportedSchemes (message : string) : bool :=
  occursIn "Ed25519" message && occursIn "Secp256k1" message.

End Account.

(* ------------------------------------------------------------------ *)

Module BCS.

Local Open Scope N_scope.

(** Modelled from the spec: the Serializer and Deserializer classes of the
    SDK are not among the sources; only callers of them are
    (examples/typescript/your_fungible_asset.ts, the gas-station server).
    This module is the stream of sections 3 and 4.1 of the specification:
    the write side produces bytes, the read side is the bytes not yet
    consumed (the buffer from its cursor on), and a failed read is [None]. *)
Definition Stream : Type := list byte.

(** Modelled from the spec: "the max representable length", the largest
    32-bit unsigned integer. *)
Definition MAX_U32_NUMBER : N := 4294967295.

(** The byte of the low 8 bits of [n]. *)
Definition byteOfN (n : N) : byte :=
  match Byte.of_N (n mod 256) with
  | Some b => b
  | None => x00
  end.

(** Modelled from the spec: "Fixed-width integers (8/16/32/64/128/256-bit):
    little-endian, fixed byte count"; [width] is the byte count. *)
Fixpoint serializeUint (width : nat) (n : N) : list byte :=
  match width with
  | O => []
  | S w => byteOfN n :: serializeUint w (n / 256)
  end.

(** The number a little-endian run of bytes stands for. *)
Fixpoint littleEndian (bs : list byte) : N :=
  match bs with
  | [] => 0
  | b :: rest => Byte.to_N b + 256 * littleEndian rest
  end.

(** Modelled from the spec: "read-exact-N-bytes (fails if insufficient)". *)
Definition readBytes (n : nat) (s : Stream) : option (list byte * Stream) :=
  if (n <=? List.length s)%nat then Some (firstn n s, skipn n s) else None.

(** Modelled from the spec: the read side of a fixed-width integer,
    [width] bytes, little-endian. *)
Definition deserializeUint (width : nat) (s : Stream) : option (N * Stream) :=
  match readBytes width s with
  | Some (bs, rest) => Some (littleEndian bs, rest)
  | None => None
  end.

(** Modelled from the spec: "unsigned LEB128 (variable-length, 7 bits/byte,
    continuation bit = high bit)"; the encoding is the minimal one
    ("ULEB128 of zero is a single zero byte"). *)
Equations? serializeU32AsUleb128 (n : N) : list byte by wf (N.to_nat n) lt :=
  serializeU32AsUleb128 n with N.eq_dec (n / 128) 0 => {
    | left _ => [byteOfN n];
    | right _ => byteOfN (n mod 128 + 128) :: serializeU32AsUleb128 (n / 128)
  }.
Proof.
  assert (n / 128 < n).
  { apply N.div_lt; [ | reflexivity].
    destruct n as [|p]; [ now rewrite N.Div0.div_0_l in * | reflexivity ]. }
  lia.
Defined.

(** Modelled from the spec: the read loop of ULEB128.  The groups of 7 bits
    read so far make [acc]; the next group has weight [2^shift]; a byte
    without the high bit ends the number, and running out of bytes fails.
    No check is made that the encoding is the minimal one (section 9:
    "Non-canonical ULEB128 decoding is not rejected in the observed
    design"). *)
Fixpoint readUleb128 (s : Stream) (shift acc : N) : option (N * Stream) :=
  match s with
  | [] => None
  | b :: rest =>
      let v := Byte.to_N b in
      let acc' := acc + (v mod 128) * 2 ^ shift in
      if v <? 128 then Some (acc', rest)
      else readUleb128 rest (shift + 7) acc'
  end.

(** Modelled from the spec: "read-ULEB128 (fails on overflow beyond the max
    representable length or malformed continuation)". *)
Definition deserializeUleb128AsU32 (s : Stream) : option (N * Stream) :=
  match readUleb128 s 0 0 with
  | Some (n, rest) => if n <=? MAX_U32_NUMBER then Some (n, rest) else None
  | None => None
  end.

(** Modelled from the spec: the shapes of section 3, and a user type as the
    list of its fields' shapes "in a fixed field order declared by that
    type". *)
Inductive BcsType : Type :=
| TUint (width : nat)           (* U8 = 1 byte ... U256 = 32 bytes *)
| TUleb128                      (* a length or an enum tag *)
| TBytes                        (* byte vector *)
| TFixedBytes (len : nat)       (* fixed-size byte array *)
| TVector (elem : BcsType)      (* sequence of T *)
| TOption (elem : BcsType)      (* optional value *)
| TStruct (fields : list BcsType).

Definition U8 : BcsType := TUint 1.
Definition U16 : BcsType := TUint 2.
Definition U32 : BcsType := TUint 4.
Definition U64 : BcsType := TUint 8.
Definition U128 : BcsType := TUint 16.
Definition U256 : BcsType := TUint 32.

(** Modelled from the spec: the values of those shapes. *)
Inductive Value : Type :=
| VUint (n : N)
| VBytes (bs : list byte)
| VSeq (items : list Value)
| VNone
| VSome (v : Value)
| VStruct (fields : list Value).

(** Modelled from the spec: which values a shape has ("its valid
    domain"): integers in range, lengths that fit the 32-bit prefix, fields
    that match the declared ones, one for one. *)
Fixpoint conforms (t : BcsType) (v : Value) {struct t} : bool :=
  match t, v with
  | TUint w, VUint n => n <? 256 ^ N.of_nat w
  | TUleb128, VUint n => n <=? MAX_U32_NUMBER
  | TBytes, VBytes bs => N.of_nat (List.length bs) <=? MAX_U32_NUMBER
  | TFixedBytes len, VBytes bs => (List.length bs =? len)%nat
  | TVector e, VSeq items =>
      (N.of_nat (List.length items) <=? MAX_U32_NUMBER) && forallb (conforms e) items
  | TOption _, VNone => true
  | TOption e, VSome x => conforms e x
  | TStruct fs, VStruct xs =>
      (fix fields (fs : list BcsType) (xs : list Value) : bool :=
         match fs, xs with
         | [], [] => true
         | f :: fs', x :: xs' => conforms f x && fields fs' xs'
         | _, _ => false
         end) fs xs
  | _, _ => false
  end.

(** Modelled from the spec: "serialize into this stream", by shape: a byte
    vector is its ULEB128 size then its bytes; a sequence is its ULEB128
    count then its elements in order; an optional is a presence byte 0x00 or
    0x01, then the value iff present; a fixed-size array is its bytes; a
    struct is its fields in declared order. *)
Fixpoint serialize (t : BcsType) (v : Value) {struct t} : list byte :=
  match t, v with
  | TUint w, VUint n => serializeUint w n
  | TUleb128, VUint n => serializeU32AsUleb128 n
  | TBytes, VBytes bs => serializeU32AsUleb128 (N.of_nat (List.length bs)) ++ bs
  | TFixedBytes _, VBytes bs => bs
  | TVector e, VSeq items =>
      serializeU32AsUleb128 (N.of_nat (List.length items))
        ++ flat_map (serialize e) items
  | TOption _, VNone => [x00]
  | TOption e, VSome x => x01 :: serialize e x
  | TStruct fs, VStruct xs =>
      (fix fields (fs : list BcsType) (xs : list Value) : list byte :=
         match fs, xs with
         | f :: fs', x :: xs' => serialize f x ++ fields fs' xs'
         | _, _ => []
         end) fs xs
  | _, _ => []
  end.

(** [count] reads of one element, in order. *)
Fixpoint readMany (one : Stream -> option (Value * Stream)) (count : nat)
    (s : Stream) : option (list Value * Stream) :=
  match count with
  | O => Some ([], s)
  | S count' =>
      match one s with
      | Some (x, rest) =>
          match readMany one count' rest with
          | Some (xs, rest') => Some (x :: xs, rest')
          | None => None
          end
      | None => None
      end
  end.

(** Modelled from the spec: "construct from this stream", by shape; the
    result is the value and the bytes left to read. *)
Fixpoint deserialize (t : BcsType) (s : Stream) {struct t}
  : option (Value * Stream) :=
  match t with
  | TUint w =>
      match deserializeUint w s with
      | Some (n, rest) => Some (VUint n, rest)
      | None => None
      end
  | TUleb128 =>
      match deserializeUleb128AsU32 s with
      | Some (n, rest) => Some (VUint n, rest)
      | None => None
      end
  | TBytes =>
      match deserializeUleb128AsU32 s with
      | Some (len, rest) =>
          match readBytes (N.to_nat len) rest with
          | Some (bs, rest') => Some (VBytes bs, rest')
          | None => None
          end
      | None => None
      end
  | TFixedBytes len =>
      match readBytes len s with
      | Some (bs, rest) => Some (VBytes bs, rest)
      | None => None
      end
  | TVector e =>
      match deserializeUleb128AsU32 s with
      | Some (count, rest) =>
          match readMany (deserialize e) (N.to_nat count) rest with
          | Some (items, rest') => Some (VSeq items, rest')
          | None => None
          end
      | None => None
      end
  | TOption e =>
      match s with
      | [] => None
      | b :: rest =>
          match Byte.to_N b with
          | 0 => Some (VNone, rest)
          | 1 => match deserialize e rest with
                 | Some (x, rest') => Some (VSome x, rest')
                 | None => None
                 end
          | _ => None
          end
      end
  | TStruct fs =>
      match
        (fix fields (fs : list BcsType) (s : Stream)
           : option (list Value * Stream) :=
           match fs with
           | [] => Some ([], s)
           | f :: fs' =>
               match deserialize f s with
               | Some (x, rest) =>
                   match fields fs' rest with
                   | Some (xs, rest') => Some (x :: xs, rest')
                   | None => None
                   end
               | None => None
               end
           end) fs s
      with
      | Some (xs, rest) => Some (VStruct xs, rest)
      | None => None
      end
  end.

(** Modelled from the spec: the top-level entry points: all of the value's
    bytes; and, below, a decode that makes the final "no trailing bytes"
    check. *)
Definition bcsToBytes (t : BcsType) (v : Value) : list byte := serialize t v.

(** Modelled from the spec: "trailing bytes after a structure's expected
    field set are an error for top-level decodes". *)
Definition fromBytes (t : BcsType) (bytes : list byte) : option Value :=
  match deserialize t bytes with
  | Some (v, []) => Some v
  | _ => None
  end.

End BCS.

(* ------------------------------------------------------------------ *)

Module Indexer.

Local Open Scope string_scope.
Local Open Scope Z_scope.

Section WaitForIndexer.

(** [ProcessorType] of src/utils/const, which is not among the sources. *)
Variable ProcessorType : Type.

(** What [waitForIndexer] does to the outside world, in order. *)
Inductive Event : Type :=
| GetIndexerLastSuccessVersion
| GetProcessorStatus (processorType : ProcessorType)
| Sleep (ms : Z).

(** What a version request settles to: the last success version, or the
    value the request threw. *)
Inductive Fetched : Type :=
| Version (v : Z)
| Failed (e : Transaction.FetchError).

(** The environment of one call: the k-th reading of
    [new Date().getTime()] and the k-th version request. *)
Record Env : Type := mkEnv {
  now : nat -> Z;
  lastSuccessVersion : nat -> Fetched
}.

Inductive Thrown : Type :=
| Error (message : string)
| Raised (e : Transaction.FetchError).

(** The local variable of the loop, with the counts of clock readings and
    of requests made so far and the trace of events. *)
Record State : Type := mkState {
  indexerVersion : Z;
  clockReads : nat;
  requests : nat;
  trace : list Event
}.

Inductive Ending : Type :=
| Returned (st : State)
| Threw (e : Thrown) (st : State)
| OutOfFuel (st : State).

Definition timeoutMilliseconds : Z := 3000.

(** [while (indexerVersion < minimumLedgerVersion) { ... }]; [fuel] bounds
    the number of iterations. *)
Fixpoint syncLoop (env : Env) (minimumLedgerVersion startTime : Z)
    (processorType : option ProcessorType) (fuel : nat) (st : State)
  : Ending :=
  if indexerVersion st <? minimumLedgerVersion then
    match fuel with
    | O => OutOfFuel st
    | S fuel' =>
        (* check for timeout *)
        let reading := now env (clockReads st) in
        let st1 := {| indexerVersion := indexerVersion st;
                      clockReads := S (clockReads st);
                      requests := requests st; trace := trace st |} in
        if timeoutMilliseconds <? reading - startTime then
          Threw (Error "waitForLastSuccessIndexerVersionSync timeout") st1
        else
          let ev := match processorType with
                    | None => GetIndexerLastSuccessVersion
                    | Some p => GetProcessorStatus p
                    end in
          let st2 := {| indexerVersion := indexerVersion st1;
                        clockReads := clockReads st1;
                        requests := S (requests st1);
                        trace := trace st1 ++ [ev] |} in
          match lastSuccessVersion env (requests st1) with
          | Failed e => Threw (Raised e) st2
          | Version v =>
              let st3 := {| indexerVersion := v;
                            clockReads := clockReads st2;
                            requests := requests st2; trace := trace st2 |} in
              if minimumLedgerVersion <=? v then Returned st3
              else
                syncLoop env minimumLedgerVersion startTime processorType fuel'
                  {| indexerVersion := v; clockReads := clockReads st3;
                     requests := requests st3;
                     trace := trace st3 ++ [Sleep 200] |}
          end
    end
  else Returned st.

(** [waitForIndexer]: [minimumLedgerVersion] is the argument after
    [BigInt(...)]; the start time is the first clock reading and
    [indexerVersion] starts at [BigInt(-1)]. *)
Definition waitForIndexer (env : Env) (fuel : nat) (minimumLedgerVersion : Z)
    (processorType : option ProcessorType) : Ending :=
  syncLoop env minimumLedgerVersion (now env 0) processorType fuel
    {| indexerVersion := -1; clockReads := 1; requests := 0; trace := [] |}.

Definition stateOf (r : Ending) : State :=
  match r with Returned st | Threw _ st | OutOfFuel st => st end.

End WaitForIndexer.

End Indexer.

(* ------------------------------------------------------------------ *)

Module Blocks.

Import Account.
Local Open Scope Z_scope.

Section FillBlockTransactions.

(** A transaction of a block, with its [version] read as
    [(lastTxn as any)?.version] and converted by [BigInt]; and the values a
    request can throw. *)
Variable Txn : Type.
Variable versionOf : Txn -> option Z.
Variable E : Type.

(** The fields of a [Block] that the code reads; [first_version] and
    [last_version] are the numbers their strings stand for, [transactions]
    may be null. *)
Record Block : Type := mkBlock {
  first_version : Z;
  last_version : Z;
  transactions : option (list Txn)
}.

(** [getTransactions({ options: { offset, limit } })] *)
Variable getTransactions : Z -> Z -> Result E (list Txn).

(** The requests of
    [for (let i = latestVersion + 1n; i < lastVersion; i += BigInt(100))],
    as (offset, limit) with
    [limit = Math.min(Number(pageSize), Number(lastVersion - i + 1n))]. *)
Equations? pageRequests (i lastVersion : Z) : list (Z * Z)
  by wf (Z.to_nat (lastVersion - i)) lt :=
  pageRequests i lastVersion with Z_lt_dec i lastVersion => {
    | left _ => (i, Z.min 100 (lastVersion - i + 1))
                  :: pageRequests (i + 100) lastVersion;
    | right _ => []
  }.
Proof. lia. Defined.

(** [await Promise.all(fetchFutures)]: the values in the order of the
    requests when all resolve; otherwise the rejections, in the order of
    the requests, of which [Promise.all] surfaces the first to settle. *)
Fixpoint settleAll (rs : list (Result E (list Txn)))
  : Result (list E) (list (list Txn)) :=
  match rs with
  | [] => Ok []
  | r :: rest =>
      match r, settleAll rest with
      | Ok txns, Ok more => Ok (txns :: more)
      | Ok _, Err errs => Err errs
      | Err e, Ok _ => Err [e]
      | Err e, Err errs => Err (e :: errs)
      end
  end.

(** [options?.withTransactions], as a condition. *)
Definition wanted (withTransactions : option bool) : bool :=
  match withTransactions with Some b => b | None => false end.

(** [block.transactions[block.transactions.length - 1]] *)
Definition lastTxnOf (present : list Txn) : option Txn :=
  last (map Some present) None.

(** [latestVersion]: the version of the last transaction present, or
    [firstVersion - 1n] when there is none to read. *)
Definition latestVersionOf (block : Block) (present : list Txn) : Z :=
  match
    match lastTxnOf present with
    | Some lastTxn => versionOf lastTxn
    | None => None
    end
  with
  | None => first_version block - 1
  | Some curVersion => curVersion
  end.

(** [fillBlockTransactions]: the block or the rejections, and the requests
    made, in order. *)
Definition fillBlockTransactions (withTransactions : option bool)
    (block : Block) : Result (list E) Block * list (Z * Z) :=
  if wanted withTransactions then
    let present := match transactions block with
                   | Some txns => txns
                   | None => []
                   end in
    let latestVersion := latestVersionOf block present in
    if latestVersion =? last_version block then
      (Ok {| first_version := first_version block;
             last_version := last_version block;
             transactions := Some present |}, [])
    else
      let plan := pageRequests (latestVersion + 1) (last_version block) in
      match settleAll (map (fun p => getTransactions (fst p) (snd p)) plan) with
      | Ok responses =>
          (Ok {| first_version := first_version block;
                 last_version := last_version block;
                 transactions := Some (present ++ List.concat responses) |}, plan)
      | Err errs => (Err errs, plan)
      end
  else (Ok block, []).

(** The versions [offset], ..., [offset + limit - 1] a request asks for. *)
Definition versionsOf (request : Z * Z) : list Z :=
  map (fun k => fst request + Z.of_nat k) (seq 0 (Z.to_nat (snd request))).

End FillBlockTransactions.

End Blocks.

(* ------------------------------------------------------------------ *)

Module Faucet.

Import Transaction.
Local Open Scope string_scope.
Local Open Scope float_scope.

Section FundAccount.

Variable DEFAULT_TXN_TIMEOUT_SEC : float.

(** The environment of one call: what
    [AccountAddress.from(accountAddress).toString()] gives or throws, what
    the faucet request resolves to ([data.txn_hashes]) or throws, and the
    node's transport for the wait that follows. *)
Record Env : Type := mkEnv {
  addressText : Account.Result string string;
  txn_hashes : Account.Result FetchError (list string);
  transport : Transaction.Env
}.

Inductive FundThrown : Type :=
| AddressError (f : string)
| FaucetError (e : FetchError)
| WaitError (e : Thrown)
| UnexpectedTransaction (type : TransactionResponseType).
    (* `Unexpected transaction received for fund account: ${res.type}` *)

(** The numbers that are falsy: [0], [-0] and [NaN]. *)
Definition falsy (t : float) : bool := (t =? 0) || is_nan t.

(** [options?.timeoutSecs || DEFAULT_TXN_TIMEOUT_SEC]: a timeout of 0 is
    falsy. *)
Definition fundTimeout (options : option WaitForTransactionOptions) : float :=
  match options with
  | Some o =>
      match opt_timeoutSecs o with
      | Some t => if falsy t then DEFAULT_TXN_TIMEOUT_SEC else t
      | None => DEFAULT_TXN_TIMEOUT_SEC
      end
  | None => DEFAULT_TXN_TIMEOUT_SEC
  end.

(** [options?.checkSuccess] *)
Definition fundCheckSuccess (options : option WaitForTransactionOptions)
  : option bool :=
  match options with
  | Some o => opt_checkSuccess o
  | None => None
  end.

(** [data.txn_hashes[0]], as the text it has in the request path and in
    the messages; an empty array gives [undefined]. *)
Definition firstHash (hashes : list string) : string :=
  match hashes with
  | h :: _ => h
  | [] => "undefined"
  end.

(** [fundAccount]; [None] when [fuel] iterations of the wait's loop were
    not enough. *)
Definition fundAccount (env : Env) (fuel : nat)
    (options : option WaitForTransactionOptions)
  : option (Account.Result FundThrown TransactionResponse) :=
  let timeout := fundTimeout options in
  match addressText env with
  | Account.Err f => Some (Account.Err (AddressError f))
  | Account.Ok _ =>
      match txn_hashes env with
      | Account.Err e => Some (Account.Err (FaucetError e))
      | Account.Ok hashes =>
          let txnHash := firstHash hashes in
          match
            waitForTransaction DEFAULT_TXN_TIMEOUT_SEC (transport env) fuel txnHash
              (Some {| opt_timeoutSecs := Some timeout;
                       opt_checkSuccess := fundCheckSuccess options |})
          with
          | None => None
          | Some (Throw e, _) => Some (Account.Err (WaitError e))
          | Some (Return res, _) =>
              if TransactionResponseType_eqb (type res) User
              then Some (Account.Ok res)
              else Some (Account.Err (UnexpectedTransaction (type res)))
          end
      end
  end.

End FundAccount.

End Faucet.

(* ================================================================== *)
(** * Part II: properties                                               *)
(* ================================================================== *)

Module TransactionFacts.

Import Transaction.

(** ** The error handler *)

(** Whether [handleAPIError] throws on [e]. *)
Definition throwsOn (e : FetchError) : bool :=
  match e with
  | OtherError _ _ => true
  | CedraApiError status _ => isRequestError status
  end.

Lemma handleAPIError_throws (st : State) (e : FetchError) :
  snd (handleAPIError st e) = if throwsOn e then Some e else None.
Proof.
  destruct e as [s m | s m]; simpl; [ | reflexivity ].
  destruct (isRequestError s); reflexivity.
Qed.

Lemma handleAPIError_fields (st : State) (e : FetchError) :
  let st' := fst (handleAPIError st e) in
  isPending st' = isPending st /\ timeElapsed st' = timeElapsed st /\
  lastTxn st' = lastTxn st /\ backoffIntervalMs st' = backoffIntervalMs st /\
  requests st' = requests st /\ trace st' = trace st /\
  lastError st' = if isCedraApiError e then Some e else lastError st.
Proof.
  destruct e as [s m | s m]; simpl; [ | tauto ].
  destruct (isRequestError s); simpl; tauto.
Qed.

Lemma isRequestError_spec (s : Z) :
  isRequestError s = true <-> (s <> 404 /\ 400 <= s < 500)%Z.
Proof.
  unfold isRequestError.
  rewrite !andb_true_iff, negb_true_iff, Z.eqb_neq, Z.leb_le, Z.ltb_lt. tauto.
Qed.

Lemma retryable_not_request_error (s : Z) :
  (s = 404 \/ 500 <= s < 600)%Z -> isRequestError s = false.
Proof.
  intros H. destruct (isRequestError s) eqn:E; [ | reflexivity ].
  apply isRequestError_spec in E. lia.
Qed.

(** ** The bound of the claim, over the rationals *)

Section ClaimedBound.

Local Open Scope Q_scope.

(** Linear arithmetic over [Q] after turning the divisions by the constants
    of this file into multiplications. *)
Ltac qlinear :=
  unfold Qdiv in *;
  change (/ 2) with (1 # 2) in *;
  change (/ 5) with (1 # 5) in *;
  change (/ 1000) with (1 # 1000) in *;
  change (/ (1 # 2)) with 2 in *;
  lra.

Lemma pow15_succ (n : nat) :
  (3 # 2) ^ Z.of_nat (S n) == (3 # 2) ^ Z.of_nat n * (3 # 2).
Proof.
  rewrite Nat2Z.inj_succ. unfold Z.succ.
  rewrite Qpower_plus by (intros H; discriminate H).
  reflexivity.
Qed.

Lemma geomSecs_bernoulli (n : nat) :
  inject_Z (Z.of_nat n) / 5 <= geomSecs n.
Proof.
  assert (1 + inject_Z (Z.of_nat n) / 2 <= (3 # 2) ^ Z.of_nat n) as B.
  { induction n as [|n IH]; [ unfold Qle; simpl; lia | ].
    rewrite pow15_succ, Nat2Z.inj_succ. unfold Z.succ.
    rewrite inject_Z_plus.
    assert (0 <= inject_Z (Z.of_nat n)) as Hn.
    { rewrite <- (Zle_Qle 0). lia. }
    change (inject_Z 1) with 1.
    generalize dependent ((3 # 2) ^ Z.of_nat n). intros. qlinear. }
  unfold geomSecs.
  generalize dependent ((3 # 2) ^ Z.of_nat n). intros. qlinear.
Qed.

Lemma leastSuch_spec (p : nat -> bool) (budget : nat) :
  forall k, p (k + budget)%nat = true ->
            p (leastSuch p k budget) = true /\
            forall m, (k <= m < leastSuch p k budget)%nat -> p m = false.
Proof.
  induction budget as [|b IH]; intros k H; simpl.
  - rewrite Nat.add_0_r in H. split; [ assumption | intros m Hm; lia ].
  - destruct (p k) eqn:Pk.
    + split; [ assumption | intros m Hm; lia ].
    + replace (k + S b)%nat with (S k + b)%nat in H by lia.
      destruct (IH (S k) H) as [H1 H2]. split; [ assumption | ].
      intros m Hm. destruct (Nat.eq_dec m k) as [-> | Hne]; [ assumption | ].
      apply H2. lia.
Qed.

(** [pollBound t] is the least [n] with [t <= 0.2 * (1.5^n - 1) / 0.5]. *)
Lemma pollBound_least (timeoutSecs : Q) :
  timeoutSecs <= geomSecs (pollBound timeoutSecs) /\
  forall m, (m < pollBound timeoutSecs)%nat -> geomSecs m < timeoutSecs.
Proof.
  unfold pollBound.
  set (p := fun n => Qle_bool timeoutSecs (geomSecs n)).
  set (b := Z.to_nat (Qceiling (5 * timeoutSecs))).
  assert (p (0 + b)%nat = true) as Hb.
  { unfold p. simpl. apply Qle_bool_iff.
    eapply Qle_trans; [ | apply geomSecs_bernoulli ].
    pose proof (Qle_ceiling (5 * timeoutSecs)) as C.
    assert (inject_Z (Qceiling (5 * timeoutSecs)) <= inject_Z (Z.of_nat b)) as M.
    { rewrite <- Zle_Qle. unfold b. lia. }
    qlinear. }
  destruct (leastSuch_spec p b 0 Hb) as [H1 H2]. split.
  - apply Qle_bool_iff. exact H1.
  - intros m Hm. assert (p m = false) as F by (apply H2; lia).
    unfold p in F. apply Qnot_le_lt. intros L.
    apply Qle_bool_iff in L. congruence.
Qed.

End ClaimedBound.

(** ** Numbers that are not negative, and numbers above -Infinity *)

Section Rounding.

Local Open Scope Z_scope.
































End Rounding.

Local Open Scope float_scope.

(** ** Backoff arithmetic *)











(** The first 31 intervals are exactly 200 * 1.5^k. *)
Lemma backoffAt_exact (k : nat) :
  (k <= 30)%nat -> (valueOf (backoffAt k) == 200 * (3 # 2) ^ Z.of_nat k)%Q.
Proof.
  intros H.
  assert (forallb (fun j => Qeq_bool (valueOf (backoffAt j))
                              (200 * (3 # 2) ^ Z.of_nat j)%Q)
            (seq 0 31) = true) as A by (vm_compute; reflexivity).
  rewrite forallb_forall in A. apply Qeq_bool_iff. apply A. apply in_seq. lia.
Qed.

Lemma backoffAt_31_rounded :
  ~ (valueOf (backoffAt 31) == 200 * (3 # 2) ^ 31)%Q.
Proof. intros H. apply Qeq_bool_iff in H. vm_compute in H. discriminate. Qed.

(** ** What holds of the local variables between statements *)

Section Invariant.

Variable env : Env.

Record Inv (st : State) : Prop := {
  inv_pending :
    isPending st = match lastTxn st with
                   | Some t => isPendingType t
                   | None => true
                   end;
  inv_retried :
    forall k e, (k < requests st)%nat -> responses env k = Rejected e ->
                throwsOn e = false;
  inv_settled :
    isPending st = false ->
    exists k t, requests st = S k /\ responses env k = Resolved t;
  inv_lastError :
    lastTxn st = None ->
    match requests st with
    | O => lastError st = None
    | S k => exists e, responses env k = Rejected e /\ lastError st = Some e
    end
}.

Lemma Inv_initialState : Inv initialState.
Proof.
  constructor; simpl; intros; try reflexivity; try lia; discriminate.
Qed.

Lemma Inv_received (ev : Event) (st : State) (t : TransactionResponse) :
  Inv st -> responses env (requests st) = Resolved t ->
  Inv (received t (issue ev st)).
Proof.
  intros I R. constructor; simpl.
  - reflexivity.
  - intros k e Hk Hr. assert (k = requests st \/ k < requests st)%nat as [->|Hlt] by lia.
    + congruence.
    + eapply inv_retried; eauto.
  - intros _. eauto.
  - discriminate.
Qed.

Lemma Inv_handled (ev : Event) (st st1 : State) (e : FetchError) :
  Inv st -> isPending st = true -> responses env (requests st) = Rejected e ->
  handleAPIError (issue ev st) e = (st1, None) -> Inv st1.
Proof.
  intros I P R H.
  pose proof (handleAPIError_throws (issue ev st) e) as T.
  pose proof (handleAPIError_fields (issue ev st) e) as F.
  rewrite H in T, F. simpl in T, F.
  destruct F as (F1 & F2 & F3 & F4 & F5 & F6 & F7).
  destruct (throwsOn e) eqn:Th; [discriminate | ].
  assert (isCedraApiError e = true) as A by (destruct e; [reflexivity | discriminate]).
  rewrite A in F7.
  constructor.
  - rewrite F1, F3. apply (inv_pending I).
  - rewrite F5. intros k e' Hk Hr.
    assert (k = requests st \/ k < requests st)%nat as [->|Hlt] by lia.
    + congruence.
    + eapply inv_retried; eauto.
  - rewrite F1, P. discriminate.
  - rewrite F5. intros _. eauto.
Qed.

Lemma Inv_setTimeElapsed (t : float) (st : State) : Inv st -> Inv (setTimeElapsed t st).
Proof. intros [? ? ? ?]. constructor; simpl; assumption. Qed.

Lemma Inv_sleepAndBackOff (st : State) : Inv st -> Inv (sleepAndBackOff st).
Proof. intros [? ? ? ?]. constructor; simpl; assumption. Qed.

(** The last event of a trace is a request. *)
Definition endsWithRequest (tr : list Event) : bool :=
  match rev tr with
  | ev :: _ => isRequest ev
  | [] => false
  end.

(** How the polling part can end. *)
Definition Ended (timeoutSecs : float) (r : Polling) : Prop :=
  match r with
  | Exited st =>
      Inv st /\ (1 <= requests st)%nat /\
      (isPending st = false \/ (timeoutSecs <=? (timeElapsed st)) = true)
  | Threw e st =>
      exists k, requests st = S k /\ responses env k = Rejected e /\
                throwsOn e = true /\
                (forall j e', (j < k)%nat -> responses env j = Rejected e' ->
                              throwsOn e' = false) /\
                endsWithRequest (trace st) = true
  | OutOfFuel _ => True
  end.

Lemma thrown_state (ev : Event) (st st1 : State) (e e' : FetchError) :
  Inv st -> responses env (requests st) = Rejected e -> isRequest ev = true ->
  handleAPIError (issue ev st) e = (st1, Some e') ->
  exists k, requests st1 = S k /\ responses env k = Rejected e' /\
            throwsOn e' = true /\
            (forall j e'', (j < k)%nat -> responses env j = Rejected e'' ->
                           throwsOn e'' = false) /\
            endsWithRequest (trace st1) = true.
Proof.
  intros I R Q H.
  pose proof (handleAPIError_throws (issue ev st) e) as T.
  pose proof (handleAPIError_fields (issue ev st) e) as F.
  rewrite H in T, F. simpl in T, F.
  destruct F as (F1 & F2 & F3 & F4 & F5 & F6 & F7).
  destruct (throwsOn e) eqn:Th; [ | discriminate ].
  injection T as ->.
  exists (requests st). repeat split; try assumption.
  - intros j e'' Hj Hr. eapply inv_retried; eauto.
  - rewrite F6. unfold endsWithRequest. rewrite rev_app_distr. simpl. assumption.
Qed.

Lemma pollLoop_Ended (timeoutSecs : float) (fuel : nat) :
  forall st, Inv st -> (1 <= requests st)%nat ->
             Ended timeoutSecs (pollLoop env timeoutSecs fuel st).
Proof.
  induction fuel as [|fuel IH]; intros st I R; simpl.
  - destruct (isPending st) eqn:P; simpl; [ | auto ].
    destruct ((timeoutSecs <=? (timeElapsed st))) eqn:L; simpl; auto.
  - destruct (isPending st) eqn:P; simpl; [ | auto ].
    destruct ((timeoutSecs <=? (timeElapsed st))) eqn:L; simpl; [ auto | ].
    destruct (responses env (requests st)) as [t | e] eqn:Resp.
    + pose proof (@Inv_received GetTransactionByHash st t I Resp) as I1.
      destruct (isPendingType t) eqn:Pt; simpl.
      * apply IH; [ apply Inv_sleepAndBackOff; assumption | simpl; lia ].
      * split; [ assumption | split; [ simpl; lia | left; exact Pt ] ].
    + destruct (handleAPIError (issue GetTransactionByHash st) e)
        as [st1 [e'|]] eqn:H.
      * simpl. exact (@thrown_state GetTransactionByHash st st1 e e' I Resp eq_refl H).
      * pose proof (@Inv_handled GetTransactionByHash st st1 e I P Resp H) as I1.
        pose proof (handleAPIError_fields (issue GetTransactionByHash st) e) as F.
        rewrite H in F. simpl in F.
        apply IH; [ apply Inv_sleepAndBackOff; assumption | simpl; lia ].
Qed.

Lemma polling_Ended (timeoutSecs : float) (fuel : nat) :
  Ended timeoutSecs (polling env timeoutSecs fuel).
Proof.
  unfold polling, tryFetch. simpl.
  destruct (responses env 0%nat) as [t | e] eqn:R0.
  - pose proof (@Inv_received GetTransactionByHash initialState t
                  Inv_initialState R0) as I1.
    unfold longWaitOnce. simpl.
    destruct (isPendingType t) eqn:Pt.
    + unfold tryFetch. simpl.
      destruct (responses env 1%nat) as [t1 | e1] eqn:R1.
      * apply pollLoop_Ended; [ | simpl; lia ].
        apply Inv_setTimeElapsed.
        apply (@Inv_received LongWaitForTransaction _ t1 I1 R1).
      * match goal with |- context [handleAPIError ?s e1] =>
          destruct (handleAPIError s e1) as [st2 [e'|]] eqn:H end.
        -- simpl. exact (@thrown_state LongWaitForTransaction _ st2 e1 e' I1 R1 eq_refl H).
        -- pose proof (handleAPIError_fields
                         (issue LongWaitForTransaction
                            (received t (issue GetTransactionByHash initialState))) e1) as F.
           rewrite H in F. simpl in F.
           apply pollLoop_Ended; [ | simpl; lia ].
           apply Inv_setTimeElapsed.
           eapply (@Inv_handled LongWaitForTransaction); eauto.
    + apply pollLoop_Ended; [ assumption | simpl; lia ].
  - destruct (handleAPIError (issue GetTransactionByHash initialState) e)
      as [st1 [e'|]] eqn:H.
    + simpl. exact (@thrown_state GetTransactionByHash initialState st1 e e'
                      Inv_initialState R0 eq_refl H).
    + pose proof (@Inv_handled GetTransactionByHash initialState st1 e
                    Inv_initialState eq_refl R0 H) as I1.
      pose proof (handleAPIError_fields (issue GetTransactionByHash initialState) e) as F.
      rewrite H in F. simpl in F. destruct F as (F1 & F2 & F3 & F4 & F5 & F6 & F7).
      unfold longWaitOnce. rewrite F1.
      unfold tryFetch. rewrite F5.
      destruct (responses env 1%nat) as [t1 | e1] eqn:R1.
      * apply pollLoop_Ended; [ | simpl; lia ].
        apply Inv_setTimeElapsed.
        apply (@Inv_received LongWaitForTransaction); [ assumption | ].
        rewrite F5. assumption.
      * match goal with |- context [handleAPIError ?s e1] =>
          destruct (handleAPIError s e1) as [st2 [e''|]] eqn:H2 end.
        -- simpl. rewrite <- F5 in R1.
           exact (@thrown_state LongWaitForTransaction st1 st2 e1 e'' I1 R1 eq_refl H2).
        -- pose proof (handleAPIError_fields (issue LongWaitForTransaction st1) e1) as G.
           rewrite H2 in G. simpl in G.
           apply pollLoop_Ended; [ | simpl; lia ].
           apply Inv_setTimeElapsed.
           eapply (@Inv_handled LongWaitForTransaction st1); eauto.
           rewrite F5; assumption.
Qed.

End Invariant.

(** What [waitForTransaction] returns, read off how the polling part ended. *)
Lemma waitForTransaction_inv (D : float) (env : Env) (fuel : nat) (h : string)
    (options : option WaitForTransactionOptions)
    (out : Outcome TransactionResponse) (fin : State) :
  waitForTransaction D env fuel h options = Some (out, fin) ->
  (polling env (timeoutSecsOf D options) fuel = Exited fin /\
   out = conclude h (timeoutSecsOf D options) (checkSuccessOf options) fin) \/
  (exists e, polling env (timeoutSecsOf D options) fuel = Threw e fin /\
             out = Throw (Raised e)).
Proof.
  unfold waitForTransaction.
  destruct (polling env (timeoutSecsOf D options) fuel) as [st | e st | st];
    intros H; [ left | right | discriminate ];
    injection H as <- <-; eauto.
Qed.

(** ** The shape of a run *)

Section Runs.

Variable env : Env.
Variable timeoutSecs : float.

Lemma pollEvents_succ (j n : nat) :
  pollEvents j (S n)
  = [GetTransactionByHash; Sleep (backoffAt j)] ++ pollEvents (S j) n.
Proof. reflexivity. Qed.


(** Leaving the loop at once. *)
Lemma pollLoop_not_pending (fuel : nat) (st : State) :
  isPending st = false -> pollLoop env timeoutSecs fuel st = Exited st.
Proof. intros P. destruct fuel; simpl; rewrite P; reflexivity. Qed.

Lemma pollLoop_timed_out (fuel : nat) (st : State) :
  (timeoutSecs <=? (timeElapsed st)) = true ->
  pollLoop env timeoutSecs fuel st = Exited st.
Proof.
  intros L. destruct fuel; simpl; rewrite L; destruct (isPending st); reflexivity.
Qed.




End Runs.

(** ** Error classification while fetching *)

(** C2. Whenever a request made by [waitForTransaction] is rejected with a
    [CedraApiError]: if its status is a 4xx other than 404, that very error
    is the one thrown to the caller, and the request was the last thing the
    function did; if its status is 404 or 5xx, the function went on: either
    a further request was made, or the function left the loop still pending
    because the timeout had elapsed, and went to its final checks. *)
Theorem wait_error_classification
    (D : float) (env : Env) (fuel : nat) (h : string)
    (options : option WaitForTransactionOptions)
    (out : Outcome TransactionResponse) (fin : State)
    (k : nat) (s : Z) (m : string) :
  waitForTransaction D env fuel h options = Some (out, fin) ->
  (k < requests fin)%nat ->
  responses env k = Rejected (CedraApiError s m) ->
  ((s <> 404 /\ 400 <= s < 500)%Z ->
     out = Throw (Raised (CedraApiError s m)) /\
     requests fin = S k /\ endsWithRequest (trace fin) = true)
  /\
  ((s = 404 \/ 500 <= s < 600)%Z ->
     (S k < requests fin)%nat \/
     (isPending fin = true /\
      ((timeoutSecsOf D options) <=? (timeElapsed fin)) = true /\
      out = conclude h (timeoutSecsOf D options) (checkSuccessOf options) fin)).
Proof.
  intros W Hk Hr.
  pose proof (polling_Ended env (timeoutSecsOf D options) fuel) as E.
  destruct (waitForTransaction_inv _ _ _ _ _ W) as [[P ->] | [e [P ->]]];
    rewrite P in E; simpl in E.
  - destruct E as (I & R1 & Exit). split.
    + intros Hs. apply isRequestError_spec in Hs.
      pose proof (inv_retried I Hk Hr) as T. simpl in T. congruence.
    + intros Hs.
      destruct (Nat.eq_dec (S k) (requests fin)) as [Heq | Hne]; [ | left; lia ].
      right. destruct (isPending fin) eqn:Pf.
      * destruct Exit as [? | L]; [ discriminate | ]. auto.
      * destruct (inv_settled I Pf) as (k' & t & Hreq & Hres).
        assert (k' = k) by lia. subst k'. congruence.
  - destruct E as (k' & Hreq & Hres & Th & Before & Last).
    assert (k = k' \/ k < k')%nat as [-> | Hlt] by lia.
    + assert (e = CedraApiError s m) by congruence. subst e. split.
      * intros _. auto.
      * intros Hs. apply retryable_not_request_error in Hs.
        simpl in Th. congruence.
    + pose proof (Before _ _ Hlt Hr) as T. simpl in T. split.
      * intros Hs. apply isRequestError_spec in Hs. congruence.
      * intros _. left. lia.
Qed.

(** ** Long poll, then polling with backoff *)


Section LongPollThenBackoff.

Variable env : Env.
Variable timeoutSecs : float.





End LongPollThenBackoff.


(** ** Termination *)




(** ** Final checks *)


(** The first message of the source, "Fetching transaction ... failed and
    timed out", is never produced: with no snapshot there is always a
    remembered error, and it is thrown instead. A [WaitForTransactionError]
    always carries a pending snapshot. *)
Lemma timeout_error_carries_snapshot
    (D : float) (env : Env) (fuel : nat) (h : string)
    (options : option WaitForTransactionOptions)
    (message : ErrorMessage) (last : option TransactionResponse) (fin : State) :
  waitForTransaction D env fuel h options
  = Some (Throw (WaitForTransactionError message last), fin) ->
  exists t, last = Some t /\ lastTxn fin = Some t /\ isPendingType t = true /\
            message = TimedOutInPendingState h (timeoutSecsOf D options).
Proof.
  intros W.
  pose proof (polling_Ended env (timeoutSecsOf D options) fuel) as E.
  destruct (waitForTransaction_inv _ _ _ _ _ W) as [[P C] | [e [P C]]];
    [ | discriminate ].
  rewrite P in E. simpl in E. destruct E as (I & R1 & _).
  unfold conclude in C.
  destruct (lastTxn fin) as [t|] eqn:L.
  - destruct (isPendingType t) eqn:Pt.
    + injection C as -> ->. eauto.
    + destruct (checkSuccessOf options); simpl in C;
        [ destruct (success t) | ]; discriminate.
  - pose proof (inv_lastError I L) as HL.
    destruct (requests fin); [ lia | ].
    destruct HL as (e & _ & Hle). rewrite Hle in C. discriminate.
Qed.

(** ** The remembered error *)

(** C5, as amended. Every [CedraApiError] given to [handleAPIError],
    retryable or not, is remembered as [lastError]; anything else is
    thrown again at once and not remembered. When the polling part ends
    with no transaction ever fetched, the timeout has elapsed, the error
    of the last request is the remembered one, and it is what
    [waitForTransaction] throws (never a [WaitForTransactionError]). *)
Theorem last_error_surfaced :
  (forall st s m,
      lastError (fst (handleAPIError st (CedraApiError s m)))
      = Some (CedraApiError s m))
  /\
  (forall st s m,
      handleAPIError st (OtherError s m) = (st, Some (OtherError s m)))
  /\
  (forall (D : float) (env : Env) (fuel : nat) (h : string)
          (options : option WaitForTransactionOptions) (fin : State),
      polling env (timeoutSecsOf D options) fuel = Exited fin ->
      lastTxn fin = None ->
      exists k e,
        requests fin = S k /\ responses env k = Rejected e /\
        lastError fin = Some e /\ isCedraApiError e = true /\
        ((timeoutSecsOf D options) <=? (timeElapsed fin)) = true /\
        waitForTransaction D env fuel h options
        = Some (Throw (Raised e), fin)).
Proof.
  split; [ | split ].
  - intros st s m. simpl. destruct (isRequestError s); reflexivity.
  - reflexivity.
  - intros D env fuel h options fin P L.
    pose proof (polling_Ended env (timeoutSecsOf D options) fuel) as E.
    rewrite P in E. simpl in E. destruct E as (I & R1 & Exit).
    pose proof (inv_lastError I L) as HL.
    destruct (requests fin) as [|k] eqn:Rq; [ lia | ].
    destruct HL as (e & Hres & Hle).
    exists k, e. repeat split; try assumption.
    + assert (k < requests fin)%nat as Hk by lia.
      pose proof (inv_retried I Hk Hres) as T.
      destruct e; [ reflexivity | discriminate ].
    + pose proof (inv_pending I) as Hp. rewrite L in Hp.
      destruct Exit as [? | ?]; [ congruence | assumption ].
    + unfold waitForTransaction. rewrite P. unfold conclude.
      rewrite L, Hle. reflexivity.
Qed.

(** ** isTransactionPending *)

(** C10, as amended. [isTransactionPending] returns whether the fetched
    transaction's type is Pending; when the fetch throws a value whose
    [status] is 404, a [CedraApiError] or not, it returns true; any other
    thrown value is thrown again unchanged. *)
Theorem isTransactionPending_spec :
  (forall t, isTransactionPending (Resolved t)
             = Return (TransactionResponseType_eqb (type t) Pending))
  /\
  (forall e, statusOf e = Some 404%Z ->
             isTransactionPending (Rejected e) = Return true)
  /\
  (forall e, statusOf e <> Some 404%Z ->
             isTransactionPending (Rejected e) = Throw (Raised e)).
Proof.
  split; [ reflexivity | split ].
  - intros e H. unfold isTransactionPending. rewrite H. reflexivity.
  - intros e H. unfold isTransactionPending.
    destruct (statusOf e) as [s|]; [ | reflexivity ].
    destruct (Z.eqb_spec s 404); [ subst; congruence | reflexivity ].
Qed.

(** ** Concrete runs *)

Local Open Scope string_scope.

Definition pendingTxn : TransactionResponse :=
  {| type := Pending; hash := "0xabc"; success := false; vm_status := "" |}.

Definition executedTxn : TransactionResponse :=
  {| type := User; hash := "0xabc"; success := true;
     vm_status := "Executed successfully" |}.


(** Not found, then unavailable, then a bad request. *)
Definition transportBadRequest : Env :=
  {| responses := fun k =>
       match k with
       | O => Rejected (CedraApiError 404 "transaction not found")
       | S O => Rejected (CedraApiError 503 "service unavailable")
       | _ => Rejected (CedraApiError 400 "invalid hash")
       end;
     longWaitMs := 50 |}.

(** Pending for ever. *)
Definition transportAlwaysPending : Env :=
  {| responses := fun _ => Resolved pendingTxn; longWaitMs := 100 |}.



(** Not found for ever. *)
Definition transportNotFound : Env :=
  {| responses := fun _ => Rejected (CedraApiError 404 "transaction not found");
     longWaitMs := 100 |}.

(** The connection fails. *)
Definition transportDown : Env :=
  {| responses := fun _ => Rejected (OtherError None "fetch failed");
     longWaitMs := 0 |}.

Definition oneSecond : option WaitForTransactionOptions :=
  Some {| opt_timeoutSecs := Some 1; opt_checkSuccess := None |}.

Lemma wait_error_classification_witness :
  exists out fin,
    waitForTransaction 20 transportBadRequest 5 "0xabc" None = Some (out, fin)
    /\ out = Throw (Raised (CedraApiError 400 "invalid hash"))
    /\ requests fin = 3%nat
    /\ endsWithRequest (trace fin) = true.
Proof.
  eexists. eexists. split; [ vm_compute; reflexivity | ].
  match goal with
  | |- ?out = _ /\ requests ?fin = _ /\ _ =>
      apply (proj1 (@wait_error_classification 20 transportBadRequest 5 "0xabc"
                      None out fin 2 400 "invalid hash"
                      ltac:(vm_compute; reflexivity) ltac:(simpl; lia) eq_refl))
  end.
  lia.
Defined.



Lemma last_error_surfaced_witness :
  exists fin k e,
    polling transportNotFound (timeoutSecsOf 20 oneSecond) 5 = Exited fin
    /\ lastTxn fin = None
    /\ requests fin = S k /\ responses transportNotFound k = Rejected e
    /\ lastError fin = Some e /\ isCedraApiError e = true
    /\ (timeoutSecsOf 20 oneSecond <=? timeElapsed fin)%float = true
    /\ waitForTransaction 20 transportNotFound 5 "0xabc" oneSecond
       = Some (Throw (Raised e), fin).
Proof.
  eexists.
  assert (polling transportNotFound (timeoutSecsOf 20 oneSecond) 5 = Exited _) as P
      by (vm_compute; reflexivity).
  destruct (proj2 (proj2 last_error_surfaced) 20 transportNotFound 5%nat "0xabc"
              oneSecond _ P eq_refl) as (k & e & H).
  exists k, e. split; [ exact P | split; [ reflexivity | exact H ] ].
Defined.


Lemma isTransactionPending_spec_witness :
  isTransactionPending (Rejected (CedraApiError 404 "transaction not found"))
  = Return true
  /\ isTransactionPending (Rejected (CedraApiError 500 "internal error"))
     = Throw (Raised (CedraApiError 500 "internal error")).
Proof.
  split.
  - apply (proj1 (proj2 isTransactionPending_spec)). reflexivity.
  - apply (proj2 (proj2 isTransactionPending_spec)). simpl. discriminate.
Defined.

(** C5, as stated, fails: a thrown value that is not a [CedraApiError] is
    not retried, and is not remembered either. *)
Lemma unexpected_error_not_remembered :
  let e := OtherError None "fetch failed" in
  handleAPIError initialState e = (initialState, Some e)
  /\ exists fin,
      waitForTransaction 20 transportDown 5 "0xabc" None
      = Some (Throw (Raised e), fin)
      /\ lastError fin = None.
Proof.
  split; [ reflexivity | ].
  eexists. split; [ vm_compute; reflexivity | reflexivity ].
Qed.


(** C10, as stated, fails: a thrown value with status 404 that is not a
    [CedraApiError] is not thrown again; the function returns true. *)
Lemma status_404_without_api_error :
  let e := OtherError (Some 404%Z) "Request failed with status code 404" in
  isCedraApiError e = false
  /\ isTransactionPending (Rejected e) = Return true
  /\ isTransactionPending (Rejected e) <> Throw (Raised e).
Proof.
  repeat split. discriminate.
Qed.

End TransactionFacts.

(* ------------------------------------------------------------------ *)

Module AccountFacts.

Import Account.
Local Open Scope string_scope.

Section Properties.

Context {C : Collaborators}.
Variable AccountAddress_from : AccountAddressInput -> Result Failure AccountAddress.

(** The address the constructor derives from the wrapped public key. *)
Definition derivedFrom (k : PrivateKeyInput) : AccountAddress :=
  derivedAddress (authKey (AnyPublicKey_new (PrivateKey_publicKey k))).

Lemma new_account_fields (args : SingleKeySignerConstructorArgs)
    (acct : SingleKeyAccount) :
  new_SingleKeyAccount AccountAddress_from args = Ok acct ->
  privateKey acct = arg_privateKey args /\
  publicKey acct = AnyPublicKey_new (PrivateKey_publicKey (arg_privateKey args)) /\
  signingScheme acct = SchemeSingleKey.
Proof.
  unfold new_SingleKeyAccount, bind.
  destruct (arg_address args) as [a|]; [ destruct (truthy a) | ].
  - destruct (AccountAddress_from a); simpl; intros H; [ | discriminate ].
    injection H as <-. auto.
  - intros H. injection H as <-. auto.
  - intros H. injection H as <-. auto.
Qed.

(** C6, as amended. For every account the constructor returns: if an
    address argument other than the empty string is supplied, the account's
    address is [AccountAddress.from] of it; if the argument is omitted, or
    is the empty string, the address is the one derived from the wrapped
    public key by [authKey().derivedAddress()]. *)
Theorem constructor_account_address
    (args : SingleKeySignerConstructorArgs) (acct : SingleKeyAccount) :
  new_SingleKeyAccount AccountAddress_from args = Ok acct ->
  (forall a, arg_address args = Some a -> a <> AddressHex (HexString "") ->
             AccountAddress_from a = Ok (accountAddress acct))
  /\ (arg_address args = None \/
      arg_address args = Some (AddressHex (HexString "")) ->
      accountAddress acct = derivedAddress (authKey (publicKey acct))).
Proof.
  intros H. destruct (new_account_fields args H) as (_ & Hpk & _).
  rewrite Hpk. revert H. unfold new_SingleKeyAccount, bind. split.
  - intros a Ha Hne. rewrite Ha in H.
    assert (truthy a = true) as T.
    { destruct a as [[s | b] | a]; try reflexivity.
      destruct s; [ congruence | reflexivity ]. }
    rewrite T in H.
    destruct (AccountAddress_from a); simpl in H; [ | discriminate ].
    injection H as <-. reflexivity.
  - intros [Ha | Ha]; rewrite Ha in H; simpl in H; injection H as <-; reflexivity.
Qed.

(** C7. [signTransaction] is [sign] applied to the signing message of the
    transaction, and [signTransactionWithAuthenticator] returns an
    authenticator exactly when [signTransaction] returns a signature: the
    one made of the account's public key and that signature. *)
Theorem sign_transaction_with_authenticator
    (this : SingleKeyAccount) (transaction : AnyRawTransaction) :
  signTransaction this transaction
  = sign this (HexBytes (generateSigningMessageForTransaction transaction))
  /\ (forall auth,
         signTransactionWithAuthenticator this transaction = Ok auth <->
         public_key auth = publicKey this /\
         signTransaction this transaction = Ok (signature auth))
  /\ (forall e,
         signTransactionWithAuthenticator this transaction = Err e <->
         signTransaction this transaction = Err e).
Proof.
  split; [ reflexivity | ].
  unfold signTransactionWithAuthenticator, bind.
  destruct (signTransaction this transaction) as [s | e0]; split.
  - intros auth. split.
    + intros H. injection H as <-. auto.
    + intros [Hp Hs]. injection Hs as ->. destruct auth. simpl in *.
      congruence.
  - intros e. split; discriminate.
  - intros auth. split; [ discriminate | intros [_ ?]; discriminate ].
  - intros e. split; congruence.
Qed.

(** C8, as amended. For every [scheme] other than Ed25519 and
    Secp256k1Ecdsa, [generate] and [fromDerivationPath] throw an [Error]
    whose message is "Unsupported signature scheme " followed by the
    offending scheme and nothing else, and make no call that produces key
    material. The message tells which schemes are supported no more than
    the offending scheme's own text does. *)
Theorem unsupported_scheme_rejected
    (scheme : SigningSchemeInput) (rnd : Entropy) (path mnemonic : string) :
  scheme <> Ed25519 -> scheme <> Secp256k1Ecdsa ->
  exists rendered,
    scheme = OtherScheme rendered
    /\ generate AccountAddress_from rnd (Some scheme)
       = (Err (Error ("Unsupported signature scheme " ++ rendered)), [])
    /\ fromDerivationPath AccountAddress_from (Some scheme) path mnemonic
       = (Err (Error ("Unsupported signature scheme " ++ rendered)), [])
    /\ reportsSupportedSchemes ("Unsupported signature scheme " ++ rendered)
       = reportsSupportedSchemes rendered.
Proof.
  intros H1 H2. destruct scheme as [ | | rendered]; try congruence.
  exists rendered. repeat split.
Qed.

End Properties.

(** ** A stand-in for the collaborators, to run the functions on *)

Definition standIn : Collaborators :=
  {| Ed25519PrivateKey := N;
     Secp256k1PrivateKey := N;
     PublicKey := N;
     Signature := N * list byte;
     AnyPublicKey := N;
     AnySignature := N * list byte;
     AuthenticationKey := N;
     AccountAddress := N;
     AnyRawTransaction := list byte;
     Failure := string;
     Entropy := N;
     Ed25519PrivateKey_generate := fun r => r;
     Secp256k1PrivateKey_generate := fun r => r;
     Ed25519PrivateKey_fromDerivationPath :=
       fun path _ =>
         if String.eqb path "" then Err "Invalid derivation path" else Ok 1%N;
     Secp256k1PrivateKey_fromDerivationPath :=
       fun path _ =>
         if String.eqb path "" then Err "Invalid derivation path" else Ok 2%N;
     Ed25519PrivateKey_publicKey := fun k => (2 * k)%N;
     Secp256k1PrivateKey_publicKey := fun k => (2 * k + 1)%N;
     Ed25519PrivateKey_sign :=
       fun k m =>
         match m with
         | HexBytes b => Ok (k, b)
         | HexString _ => Err "Hex string not supported"
         end;
     Secp256k1PrivateKey_sign :=
       fun k m =>
         match m with
         | HexBytes b => Ok (k, b)
         | HexString _ => Err "Hex string not supported"
         end;
     AnyPublicKey_new := fun pk => pk;
     AnySignature_new := fun s => s;
     authKey := fun pk => (pk + 1000)%N;
     derivedAddress := fun ak => ak;
     generateSigningMessageForTransaction := fun t => t |}.

(** An [AccountAddress.from] that rejects the empty string. *)
Definition standInFrom (a : @AccountAddressInput standIn) : Result string N :=
  match a with
  | AddressHex (HexString EmptyString) => Err "Hex string is too short"
  | AddressHex (HexString _) => Ok 7%N
  | AddressHex (HexBytes _) => Ok 8%N
  | AddressObject x => Ok x
  end.

Definition standInAccount (address : option (@AccountAddressInput standIn))
  : @SingleKeyAccount standIn :=
  {| privateKey := @Ed25519Key standIn 5%N;
     publicKey := 10%N;
     accountAddress := match address with
                       | Some (AddressObject x) => x
                       | _ => 1010%N
                       end;
     signingScheme := SchemeSingleKey |}.

Lemma constructor_account_address_witness :
  let args := {| arg_privateKey := @Ed25519Key standIn 5%N;
                 arg_address := Some (AddressObject (42%N : @AccountAddress standIn)) |} in
  @new_SingleKeyAccount standIn standInFrom args
  = Ok (standInAccount (arg_address args))
  /\ standInFrom (AddressObject (42%N : @AccountAddress standIn))
     = Ok (accountAddress (standInAccount (arg_address args))).
Proof.
  intros args. split; [ reflexivity | ].
  apply (proj1 (@constructor_account_address standIn standInFrom args
                  (standInAccount (arg_address args)) eq_refl)
           (AddressObject (42%N : @AccountAddress standIn)) eq_refl).
  discriminate.
Defined.

(** C6, as stated, fails: the empty string supplied as the address is not
    looked at; the account is built all the same, at the derived address. *)
Lemma empty_string_address_ignored :
  let supplied : @AccountAddressInput standIn := AddressHex (HexString "") in
  let args := {| arg_privateKey := @Ed25519Key standIn 5%N;
                 arg_address := Some supplied |} in
  @new_SingleKeyAccount standIn standInFrom args = Ok (standInAccount None)
  /\ standInFrom supplied <> Ok (accountAddress (standInAccount None))
  /\ ~ (forall (C : Collaborators)
               (from : @AccountAddressInput C -> Result (@Failure C) (@AccountAddress C))
               (args : @SingleKeySignerConstructorArgs C)
               (acct : @SingleKeyAccount C) (a : @AccountAddressInput C),
           new_SingleKeyAccount from args = Ok acct ->
           arg_address args = Some a ->
           from a = Ok (accountAddress acct)).
Proof.
  intros supplied args.
  assert (@new_SingleKeyAccount standIn standInFrom args = Ok (standInAccount None))
    as H by reflexivity.
  split; [ exact H | ]. split; [ discriminate | ].
  intros Claim.
  specialize (Claim standIn standInFrom args (standInAccount None) supplied
                H eq_refl).
  discriminate Claim.
Qed.

Lemma sign_transaction_with_authenticator_witness :
  let this := standInAccount None in
  let transaction : @AnyRawTransaction standIn := [x01; x02] in
  let auth := @mkAuthenticator standIn 10%N (5%N, [x01; x02]) in
  @signTransactionWithAuthenticator standIn this transaction = Ok auth
  /\ public_key auth = publicKey this
  /\ @signTransaction standIn this transaction = Ok (signature auth).
Proof.
  intros this transaction auth. split; [ reflexivity | ].
  apply (proj1 (proj2 (@sign_transaction_with_authenticator standIn this transaction))
           auth).
  reflexivity.
Defined.

Lemma unsupported_scheme_rejected_witness :
  exists rendered,
    OtherScheme "1" = OtherScheme rendered
    /\ @generate standIn standInFrom 0%N (Some (OtherScheme "1"))
       = (Err (Error ("Unsupported signature scheme " ++ rendered)), [])
    /\ @fromDerivationPath standIn standInFrom (Some (OtherScheme "1"))
         "m/44'/637'/0'/0'/0'" "abandon abandon about"
       = (Err (Error ("Unsupported signature scheme " ++ rendered)), [])
    /\ reportsSupportedSchemes ("Unsupported signature scheme " ++ rendered)
       = reportsSupportedSchemes rendered.
Proof.
  apply (@unsupported_scheme_rejected standIn standInFrom (OtherScheme "1") 0%N
           "m/44'/637'/0'/0'/0'" "abandon abandon about");
    discriminate.
Defined.

(** C8, as stated, fails: the message names the offending scheme and not
    the supported ones. *)
Lemma unsupported_scheme_message_names_offender :
  fst (@generate standIn standInFrom 0%N (Some (OtherScheme "1")))
  = Err (Error "Unsupported signature scheme 1")
  /\ fst (@fromDerivationPath standIn standInFrom (Some (OtherScheme "1"))
            "m/44'/637'/0'/0'/0'" "abandon abandon about")
     = Err (Error "Unsupported signature scheme 1")
  /\ reportsSupportedSchemes "Unsupported signature scheme 1" = false.
Proof.
  repeat split.
Qed.

End AccountFacts.

(* ------------------------------------------------------------------ *)

Module BCSFacts.

Import BCS.
Local Open Scope N_scope.

(** ** Bytes and fixed-width integers *)

Lemma to_N_byteOfN (n : N) : Byte.to_N (byteOfN n) = n mod 256.
Proof.
  unfold byteOfN. destruct (Byte.of_N (n mod 256)) as [b|] eqn:E.
  - apply Byte.to_of_N. exact E.
  - apply Byte.of_N_None_iff in E.
    pose proof (N.mod_upper_bound n 256). lia.
Qed.

Lemma length_serializeUint (width : nat) :
  forall n, List.length (serializeUint width n) = width.
Proof.
  induction width as [|w IH]; intros n; simpl; [ reflexivity | ].
  rewrite IH. reflexivity.
Qed.

Lemma littleEndian_serializeUint (width : nat) :
  forall n, n < 256 ^ N.of_nat width ->
            littleEndian (serializeUint width n) = n.
Proof.
  induction width as [|w IH]; intros n Hn.
  - simpl in *. lia.
  - cbn [serializeUint littleEndian].
    rewrite to_N_byteOfN, IH.
    + rewrite N.add_comm. symmetry. apply N.div_mod. discriminate.
    + rewrite Nat2N.inj_succ, N.pow_succ_r' in Hn.
      apply N.Div0.div_lt_upper_bound. exact Hn.
Qed.

Lemma readBytes_app (bs : list byte) (rest : Stream) :
  readBytes (List.length bs) (bs ++ rest) = Some (bs, rest).
Proof.
  unfold readBytes.
  assert ((List.length bs <=? List.length (bs ++ rest))%nat = true) as L.
  { apply Nat.leb_le. rewrite length_app. lia. }
  assert (firstn (List.length bs) (bs ++ rest) = bs) as F.
  { clear L. induction bs as [|b bs IH]; simpl; [ reflexivity | now rewrite IH ]. }
  assert (skipn (List.length bs) (bs ++ rest) = rest) as S.
  { clear L F. induction bs as [|b bs IH]; simpl; [ reflexivity | exact IH ]. }
  rewrite L, F, S. reflexivity.
Qed.

Lemma deserializeUint_serializeUint (width : nat) (n : N) (rest : Stream) :
  n < 256 ^ N.of_nat width ->
  deserializeUint width (serializeUint width n ++ rest) = Some (n, rest).
Proof.
  intros Hn. unfold deserializeUint.
  rewrite <- (length_serializeUint width n) at 1.
  rewrite readBytes_app, littleEndian_serializeUint by exact Hn. reflexivity.
Qed.

(** ** ULEB128 *)

Lemma readUleb128_serialize (n : N) :
  forall (rest : Stream) (shift acc : N),
    readUleb128 (serializeU32AsUleb128 n ++ rest) shift acc
    = Some (acc + n * 2 ^ shift, rest).
Proof.
  funelim (serializeU32AsUleb128 n); intros rest shift acc.
  - (* one byte: n < 128 *)
    clear Heq. assert (n < 128) as Hn.
    { apply N.div_small_iff in e; [ exact e | discriminate ]. }
    simpl. rewrite to_N_byteOfN.
    rewrite (N.mod_small n 256) by lia.
    rewrite (N.mod_small n 128) by lia.
    apply N.ltb_lt in Hn. rewrite Hn. reflexivity.
  - (* a continuation byte, then the rest *)
    clear Heq. simpl. rewrite to_N_byteOfN.
    assert (n mod 128 < 128) as Hm by (apply N.mod_upper_bound; discriminate).
    rewrite (N.mod_small (n mod 128 + 128) 256) by lia.
    assert ((n mod 128 + 128 <? 128) = false) as F
        by (apply N.ltb_ge, N.le_add_l).
    rewrite F.
    assert ((n mod 128 + 128) mod 128 = n mod 128) as M.
    { replace (n mod 128 + 128) with (n mod 128 + 1 * 128) by lia.
      rewrite N.Div0.mod_add. apply N.Div0.mod_mod. }
    rewrite M, H. f_equal. f_equal.
    rewrite N.pow_add_r.
    rewrite (N.div_mod n 128) at 3 by discriminate.
    change (2 ^ 7) with 128. lia.
Qed.

Lemma deserializeUleb128_serialize (n : N) (rest : Stream) :
  n <= MAX_U32_NUMBER ->
  deserializeUleb128AsU32 (serializeU32AsUleb128 n ++ rest) = Some (n, rest).
Proof.
  intros Hn. unfold deserializeUleb128AsU32.
  rewrite readUleb128_serialize. simpl.
  rewrite N.mul_1_r. apply N.leb_le in Hn. rewrite Hn. reflexivity.
Qed.

(** ** Shapes *)

(** Induction on shapes, with the hypothesis for every field of a struct. *)
Lemma BcsType_induction (P : BcsType -> Prop) :
  (forall width, P (TUint width)) ->
  P TUleb128 ->
  P TBytes ->
  (forall len, P (TFixedBytes len)) ->
  (forall e, P e -> P (TVector e)) ->
  (forall e, P e -> P (TOption e)) ->
  (forall fs, Forall P fs -> P (TStruct fs)) ->
  forall t, P t.
Proof.
  intros HU HL HB HF HV HO HS.
  fix IH 1. intros [w | | | len | e | e | fs].
  - apply HU.
  - apply HL.
  - apply HB.
  - apply HF.
  - apply HV, IH.
  - apply HO, IH.
  - apply HS. induction fs as [|f fs IHfs]; constructor; [ apply IH | exact IHfs ].
Qed.

(** The struct cases, field by field. *)
Lemma conforms_struct_cons (f : BcsType) (fs : list BcsType)
    (x : Value) (xs : list Value) :
  conforms (TStruct (f :: fs)) (VStruct (x :: xs))
  = conforms f x && conforms (TStruct fs) (VStruct xs).
Proof. reflexivity. Qed.

Lemma serialize_struct_cons (f : BcsType) (fs : list BcsType)
    (x : Value) (xs : list Value) :
  serialize (TStruct (f :: fs)) (VStruct (x :: xs))
  = serialize f x ++ serialize (TStruct fs) (VStruct xs).
Proof. reflexivity. Qed.

Lemma deserialize_struct_cons (f : BcsType) (fs : list BcsType)
    (x : Value) (xs : list Value) (s rest rest' : Stream) :
  deserialize f s = Some (x, rest) ->
  deserialize (TStruct fs) rest = Some (VStruct xs, rest') ->
  deserialize (TStruct (f :: fs)) s = Some (VStruct (x :: xs), rest').
Proof.
  intros Hf Hfs. cbn [deserialize] in *. rewrite Hf.
  match type of Hfs with
  | match ?m with _ => _ end = _ => destruct m as [[ys r]|]
  end; [ | discriminate ].
  injection Hfs as -> ->. reflexivity.
Qed.

Lemma readMany_flat_map (e : BcsType) (items : list Value) (rest : Stream) :
  (forall v rest, conforms e v = true ->
                  deserialize e (serialize e v ++ rest) = Some (v, rest)) ->
  forallb (conforms e) items = true ->
  readMany (deserialize e) (List.length items)
           (flat_map (serialize e) items ++ rest)
  = Some (items, rest).
Proof.
  intros He. induction items as [|x items IH]; intros Hall; simpl.
  - reflexivity.
  - simpl in Hall. apply andb_true_iff in Hall. destruct Hall as [Hx Hitems].
    rewrite <- app_assoc, (He x _ Hx), (IH Hitems). reflexivity.
Qed.

(** Reading back what was written gives the value and leaves the bytes
    that follow it. *)
Lemma deserialize_serialize (t : BcsType) :
  forall (v : Value) (rest : Stream),
    conforms t v = true ->
    deserialize t (serialize t v ++ rest) = Some (v, rest).
Proof.
  induction t as [w | | | len | e IH | e IH | fs IH] using BcsType_induction;
    intros v rest Hc.
  - destruct v as [n | | | | | ]; try discriminate.
    simpl in *. apply N.ltb_lt in Hc.
    rewrite deserializeUint_serializeUint by exact Hc. reflexivity.
  - destruct v as [n | | | | | ]; try discriminate.
    simpl in *. apply N.leb_le in Hc.
    rewrite deserializeUleb128_serialize by exact Hc. reflexivity.
  - destruct v as [ | bs | | | | ]; try discriminate.
    cbn [conforms serialize deserialize] in *. apply N.leb_le in Hc.
    rewrite <- app_assoc, deserializeUleb128_serialize by exact Hc.
    rewrite Nat2N.id, readBytes_app. reflexivity.
  - destruct v as [ | bs | | | | ]; try discriminate.
    cbn [conforms serialize deserialize] in *. apply Nat.eqb_eq in Hc. subst len.
    rewrite readBytes_app. reflexivity.
  - destruct v as [ | | items | | | ]; try discriminate.
    cbn [conforms serialize deserialize] in *.
    apply andb_true_iff in Hc. destruct Hc as [Hlen Hall].
    apply N.leb_le in Hlen.
    rewrite <- app_assoc, deserializeUleb128_serialize by exact Hlen.
    rewrite Nat2N.id, (readMany_flat_map e items rest IH Hall). reflexivity.
  - destruct v as [ | | | | x | ]; try discriminate.
    + reflexivity.
    + cbn [conforms serialize deserialize] in *.
      change ((x01 :: serialize e x) ++ rest) with (x01 :: (serialize e x ++ rest)).
      cbn [Byte.to_N]. rewrite (IH x rest Hc). reflexivity.
  - destruct v as [ | | | | | xs ]; try discriminate.
    revert xs rest Hc.
    induction IH as [|f fs Hf Hfs IHfs]; intros xs rest Hc.
    + destruct xs; [ reflexivity | discriminate ].
    + destruct xs as [|x xs]; [ discriminate | ].
      rewrite conforms_struct_cons in Hc.
      apply andb_true_iff in Hc. destruct Hc as [Hx Hxs].
      rewrite serialize_struct_cons, <- app_assoc.
      eapply deserialize_struct_cons; [ apply Hf; exact Hx | apply IHfs; exact Hxs ].
Qed.

(** ** Round trip *)

(** The value of the boundary cases: 0, the largest u8, u64, u128 and
    u256, the empty byte vector, the empty sequence, the absent optional;
    with a present optional, a non-empty sequence, a fixed-size array and a
    nested struct. *)
Definition boundaryType : BcsType :=
  TStruct [U8; U8; U16; U32; U64; U128; U256; TUleb128; TBytes;
           TVector U64; TOption U8; TOption TBytes; TVector (TOption U16);
           TFixedBytes 2; TStruct [TUleb128; TBytes]].

Definition boundaryValue : Value :=
  VStruct [VUint 0; VUint 255; VUint 65535; VUint 4294967295;
           VUint 18446744073709551615;
           VUint 340282366920938463463374607431768211455;
           VUint (2 ^ 256 - 1);
           VUint 0; VBytes [];
           VSeq []; VNone; VSome (VBytes [xff]);
           VSeq [VSome (VUint 0); VNone];
           VBytes [x00; xff];
           VStruct [VUint 4294967295; VBytes [x01; x02; x03]]].

(** C1. For every shape built from the primitives (fixed-width integers,
    ULEB128 lengths, byte vectors, fixed-size byte arrays, sequences,
    optionals) and structs of fields in their declared order, and every
    value of that shape, decoding the bytes of the value gives the value
    back: at top level with nothing left over, and nested with exactly the
    bytes that follow left to read. *)
Theorem bcs_round_trip (t : BcsType) (v : Value) :
  conforms t v = true ->
  fromBytes t (bcsToBytes t v) = Some v
  /\ forall rest, deserialize t (bcsToBytes t v ++ rest) = Some (v, rest).
Proof.
  intros Hc. split.
  - unfold fromBytes, bcsToBytes.
    rewrite <- (app_nil_r (serialize t v)).
    rewrite (deserialize_serialize t v [] Hc). reflexivity.
  - intros rest. apply deserialize_serialize. exact Hc.
Qed.

Lemma bcs_round_trip_witness :
  conforms boundaryType boundaryValue = true
  /\ fromBytes boundaryType (bcsToBytes boundaryType boundaryValue)
     = Some boundaryValue
  /\ fromBytes U8 (bcsToBytes U8 (VUint 0)) = Some (VUint 0)
  /\ fromBytes U256 (bcsToBytes U256 (VUint (2 ^ 256 - 1)))
     = Some (VUint (2 ^ 256 - 1))
  /\ fromBytes TBytes (bcsToBytes TBytes (VBytes [])) = Some (VBytes [])
  /\ fromBytes (TVector U64) (bcsToBytes (TVector U64) (VSeq [])) = Some (VSeq [])
  /\ fromBytes (TOption U64) (bcsToBytes (TOption U64) VNone) = Some VNone.
Proof.
  split; [ vm_compute; reflexivity | ].
  split; [ apply (proj1 (bcs_round_trip boundaryType boundaryValue
                           ltac:(vm_compute; reflexivity))) | ].
  split; [ apply (proj1 (bcs_round_trip U8 (VUint 0) eq_refl)) | ].
  split; [ apply (proj1 (bcs_round_trip U256 (VUint (2 ^ 256 - 1))
                           ltac:(vm_compute; reflexivity))) | ].
  split; [ apply (proj1 (bcs_round_trip TBytes (VBytes []) eq_refl)) | ].
  split; [ apply (proj1 (bcs_round_trip (TVector U64) (VSeq []) eq_refl))
         | apply (proj1 (bcs_round_trip (TOption U64) VNone eq_refl)) ].
Defined.

End BCSFacts.

(* ================================================================== *)
(** * Part III: further properties of the same code                     *)
(* ================================================================== *)

Module WaitFacts.

Import Transaction TransactionFacts.
Local Open Scope string_scope.
Local Open Scope list_scope.
Local Open Scope float_scope.

(** A response after which [waitForTransaction] keeps waiting: a pending
    transaction, or a rejection that [handleAPIError] does not throw. *)
Definition keepsWaiting (r : Response) : bool :=
  match r with
  | Resolved t => isPendingType t
  | Rejected e => negb (throwsOn e)
  end.

Definition isSleep (ev : Event) : bool :=
  match ev with Sleep _ => true | _ => false end.

(** The thrown values on which [handleAPIError] returns: the
    [CedraApiError]s whose status is 404 or lies outside 400..499. *)
Lemma throwsOn_false_iff (e : FetchError) :
  throwsOn e = false <->
  exists s m, e = CedraApiError s m /\ (s = 404 \/ s < 400 \/ 500 <= s)%Z.
Proof.
  split.
  - destruct e as [s m | s m]; simpl; [ | discriminate ].
    intros H. exists s, m. split; [ reflexivity | ].
    destruct (Z.eq_dec s 404) as [-> | Hne]; [ auto | ].
    destruct (Z_lt_dec s 400); [ auto | ].
    destruct (Z_le_dec 500 s); [ auto | ].
    assert (isRequestError s = true) by (apply isRequestError_spec; lia).
    congruence.
  - intros (s & m & -> & Hs). simpl.
    destruct (isRequestError s) eqn:E; [ | reflexivity ].
    apply isRequestError_spec in E. lia.
Qed.

(** X1. A rejected request ends [waitForTransaction] exactly when
    [handleAPIError] throws on the value: anything that is not a
    [CedraApiError], whatever its status, is thrown to the caller at once
    and unchanged, like a 4xx other than 404; a [CedraApiError] with any
    other status (3xx, 600, ...) is retried like a 5xx. *)
Theorem rejection_classification
    (D : float) (env : Env) (fuel : nat) (h : string)
    (options : option WaitForTransactionOptions)
    (out : Outcome TransactionResponse) (fin : State)
    (k : nat) (e : FetchError) :
  waitForTransaction D env fuel h options = Some (out, fin) ->
  (k < requests fin)%nat ->
  responses env k = Rejected e ->
  (isCedraApiError e = false \/
   (exists s m, e = CedraApiError s m /\ s <> 404 /\ 400 <= s < 500)%Z ->
     out = Throw (Raised e) /\ requests fin = S k /\
     endsWithRequest (trace fin) = true)
  /\
  ((exists s m, e = CedraApiError s m /\ (s = 404 \/ s < 400 \/ 500 <= s)%Z) ->
     (S k < requests fin)%nat \/
     (isPending fin = true /\
      ((timeoutSecsOf D options) <=? (timeElapsed fin)) = true /\
      out = conclude h (timeoutSecsOf D options) (checkSuccessOf options) fin)).
Proof.
  intros W Hk Hr.
  assert ((isCedraApiError e = false \/
           (exists s m, e = CedraApiError s m /\ s <> 404 /\ 400 <= s < 500)%Z)
          -> throwsOn e = true) as Fatal.
  { intros [H | (s & m & -> & Hs)].
    - destruct e; [ discriminate | reflexivity ].
    - simpl. apply isRequestError_spec. exact Hs. }
  pose proof (proj2 (throwsOn_false_iff e)) as Retry.
  pose proof (polling_Ended env (timeoutSecsOf D options) fuel) as E.
  destruct (waitForTransaction_inv _ _ _ _ _ W) as [[P ->] | [e0 [P ->]]];
    rewrite P in E; simpl in E.
  - destruct E as (I & R1 & Exit). split.
    + intros Hs. pose proof (inv_retried I Hk Hr) as T.
      rewrite (Fatal Hs) in T. discriminate.
    + intros Hs.
      destruct (Nat.eq_dec (S k) (requests fin)) as [Heq | Hne]; [ | left; lia ].
      right. destruct (isPending fin) eqn:Pf.
      * destruct Exit as [? | L]; [ discriminate | ]. auto.
      * destruct (inv_settled I Pf) as (k' & t & Hreq & Hres).
        assert (k' = k) by lia. subst k'. congruence.
  - destruct E as (k' & Hreq & Hres & Th & Before & Last).
    assert (k = k' \/ k < k')%nat as [-> | Hlt] by lia.
    + assert (e0 = e) by congruence. subst e0. split.
      * intros _. auto.
      * intros Hs. rewrite (Retry Hs) in Th. discriminate.
    + pose proof (Before _ _ Hlt Hr) as T. split.
      * intros Hs. rewrite (Fatal Hs) in T. discriminate.
      * intros _. left. lia.
Qed.

(** ** A rule for invariants of the polling part *)

Section InvariantRule.

Variable env : Env.
Variable P : State -> Prop.

Hypothesis P_initial : P initialState.
Hypothesis P_received :
  forall ev st t, P st -> responses env (requests st) = Resolved t ->
                  P (received t (issue ev st)).
Hypothesis P_handled :
  forall ev st st1 e, P st -> isPending st = true ->
                      responses env (requests st) = Rejected e ->
                      handleAPIError (issue ev st) e = (st1, None) -> P st1.
Hypothesis P_setTimeElapsed : forall q st, P st -> P (setTimeElapsed q st).
Hypothesis P_sleepAndBackOff : forall st, P st -> P (sleepAndBackOff st).

Lemma pollLoop_invariant (timeoutSecs : float) (fuel : nat) :
  forall st st', P st -> pollLoop env timeoutSecs fuel st = Exited st' -> P st'.
Proof.
  induction fuel as [|fuel IH]; intros st st' H; simpl.
  - destruct (isPending st); simpl; [ | intros E; injection E as <-; exact H ].
    destruct ((timeoutSecs <=? (timeElapsed st))); simpl;
      [ intros E; injection E as <-; exact H | discriminate ].
  - destruct (isPending st) eqn:Pd; simpl;
      [ | intros E; injection E as <-; exact H ].
    destruct ((timeoutSecs <=? (timeElapsed st))); simpl;
      [ intros E; injection E as <-; exact H | ].
    destruct (responses env (requests st)) as [t | e] eqn:Resp.
    + pose proof (@P_received GetTransactionByHash st t H Resp) as H1.
      destruct (isPendingType t) eqn:Pt; simpl.
      * apply IH. apply P_sleepAndBackOff. exact H1.
      * intros E. injection E as <-. exact H1.
    + destruct (handleAPIError (issue GetTransactionByHash st) e)
        as [st1 [e'|]] eqn:Hh; [ discriminate | ].
      apply IH. apply P_sleepAndBackOff.
      exact (@P_handled GetTransactionByHash st st1 e H Pd Resp Hh).
Qed.

Lemma polling_invariant (timeoutSecs : float) (fuel : nat) (st' : State) :
  polling env timeoutSecs fuel = Exited st' -> P st'.
Proof.
  unfold polling.
  destruct (tryFetch env GetTransactionByHash initialState) as [st1 [e|]] eqn:H1;
    [ discriminate | ].
  assert (P st1) as P1.
  { unfold tryFetch in H1. simpl in H1.
    destruct (responses env 0%nat) as [t | e] eqn:R0.
    - injection H1 as <-.
      apply (@P_received GetTransactionByHash initialState t P_initial R0).
    - apply (@P_handled GetTransactionByHash initialState st1 e
               P_initial eq_refl R0 H1). }
  unfold longWaitOnce.
  destruct (isPending st1) eqn:Pd.
  - destruct (tryFetch env LongWaitForTransaction st1) as [st2 [e|]] eqn:H2;
      [ discriminate | ].
    apply pollLoop_invariant. apply P_setTimeElapsed.
    unfold tryFetch in H2.
    destruct (responses env (requests st1)) as [t | e] eqn:R1.
    + injection H2 as <-.
      apply (@P_received LongWaitForTransaction st1 t P1 R1).
    + apply (@P_handled LongWaitForTransaction st1 st2 e P1 Pd R1 H2).
  - apply pollLoop_invariant. exact P1.
Qed.

End InvariantRule.

(** ** What is returned *)

(** When the loop has been left with [isPending] false, the last request
    resolved to the snapshot in [lastTxn]. *)
Definition settledByLast (env : Env) (st : State) : Prop :=
  isPending st = false ->
  exists k t, requests st = S k /\ responses env k = Resolved t /\
              lastTxn st = Some t.

Lemma polling_settledByLast (env : Env) (timeoutSecs : float) (fuel : nat)
    (st : State) :
  polling env timeoutSecs fuel = Exited st -> settledByLast env st.
Proof.
  apply polling_invariant; unfold settledByLast.
  - discriminate.
  - intros ev st0 t _ R _. exists (requests st0), t. simpl. auto.
  - intros ev st0 st1 e _ Pd _ H.
    pose proof (handleAPIError_fields (issue ev st0) e) as F.
    rewrite H in F. simpl in F. destruct F as (F1 & _).
    rewrite F1, Pd. discriminate.
  - intros q st0 H. exact H.
  - intros st0 H. exact H.
Qed.

Lemma waitForTransaction_returns
    (D : float) (env : Env) (fuel : nat) (h : string)
    (options : option WaitForTransactionOptions)
    (t : TransactionResponse) (fin : State) :
  waitForTransaction D env fuel h options = Some (Return t, fin) ->
  isPendingType t = false
  /\ (checkSuccessOf options = true -> success t = true)
  /\ exists k, requests fin = S k /\ responses env k = Resolved t.
Proof.
  intros W.
  pose proof (polling_Ended env (timeoutSecsOf D options) fuel) as E.
  destruct (waitForTransaction_inv _ _ _ _ _ W) as [[P C] | [e [P C]]];
    [ | discriminate ].
  rewrite P in E. simpl in E. destruct E as (I & _ & _).
  pose proof (polling_settledByLast _ _ _ P) as S.
  unfold conclude in C.
  destruct (lastTxn fin) as [t'|] eqn:L;
    [ | destruct (lastError fin); discriminate ].
  destruct (isPendingType t') eqn:Pt; [ discriminate | ].
  assert (t' = t /\ (checkSuccessOf options = true -> success t' = true))
    as [-> Hs].
  { destruct (checkSuccessOf options); simpl in C.
    - destruct (success t') eqn:Su; simpl in C; [ | discriminate ].
      injection C as ->. auto.
    - injection C as ->. split; [ reflexivity | discriminate ]. }
  split; [ exact Pt | split; [ exact Hs | ] ].
  pose proof (inv_pending I) as Hp. rewrite L, Pt in Hp.
  destruct (S Hp) as (k & t'' & Hreq & Hres & Hl).
  exists k. split; [ exact Hreq | congruence ].
Qed.

(** X2. A transaction that [waitForTransaction] returns is the answer to
    the last request it made; it is never pending, and it has
    [success == true] unless success-checking was switched off. *)
Theorem returned_transaction
    (D : float) (env : Env) (fuel : nat) (h : string)
    (options : option WaitForTransactionOptions)
    (t : TransactionResponse) (fin : State) :
  waitForTransaction D env fuel h options = Some (Return t, fin) ->
  isPendingType t = false
  /\ (checkSuccessOf options = true -> success t = true)
  /\ exists k, requests fin = S k /\ responses env k = Resolved t.
Proof. apply waitForTransaction_returns. Qed.

(** ** Runs that are decided by the responses *)

(** The result for a snapshot that is not pending. *)
Definition resultFor (h : string) (checkSuccess : bool)
    (t : TransactionResponse) : Outcome TransactionResponse :=
  if checkSuccess && negb (success t) then
    Throw (FailedTransactionError (FailedWithAnError h (vm_status t)) t)
  else Return t.

Lemma conclude_settled (h : string) (timeoutSecs : float) (checkSuccess : bool)
    (st : State) (t : TransactionResponse) :
  lastTxn st = Some t -> isPendingType t = false ->
  conclude h timeoutSecs checkSuccess st = resultFor h checkSuccess t.
Proof.
  intros L Pt. unfold conclude, resultFor. rewrite L, Pt.
  destruct checkSuccess; simpl; [ | reflexivity ].
  destruct (success t); reflexivity.
Qed.

(** X3. When the first fetch already finds the transaction not pending,
    [waitForTransaction] makes that one request and nothing else (no long
    poll, no sleep, whatever the timeout) and returns the transaction, or
    throws [FailedTransactionError] for it. *)
Theorem already_committed
    (D : float) (env : Env) (h : string)
    (options : option WaitForTransactionOptions) (t : TransactionResponse) :
  responses env 0%nat = Resolved t ->
  isPendingType t = false ->
  exists fin,
    (forall fuel, waitForTransaction D env fuel h options
                  = Some (resultFor h (checkSuccessOf options) t, fin))
    /\ trace fin = [GetTransactionByHash]
    /\ requests fin = 1%nat.
Proof.
  intros R0 Pt.
  exists (received t (issue GetTransactionByHash initialState)).
  split; [ | split; reflexivity ].
  intros fuel. unfold waitForTransaction, polling, tryFetch. simpl.
  rewrite R0. unfold longWaitOnce. simpl. rewrite Pt.
  rewrite pollLoop_not_pending by exact Pt.
  rewrite (conclude_settled _ _ _ _ (t := t)) by (reflexivity || exact Pt).
  reflexivity.
Qed.

(** One fetch that keeps the function waiting. *)
Lemma tryFetch_keepsWaiting (env : Env) (ev : Event) (st : State) :
  isPending st = true ->
  keepsWaiting (responses env (requests st)) = true ->
  exists st1,
    tryFetch env ev st = (st1, None) /\ isPending st1 = true /\
    requests st1 = S (requests st) /\ trace st1 = trace st ++ [ev] /\
    backoffIntervalMs st1 = backoffIntervalMs st /\
    timeElapsed st1 = timeElapsed st.
Proof.
  intros Pd K. unfold tryFetch.
  destruct (responses env (requests st)) as [t | e]; simpl in K.
  - eexists. split; [ reflexivity | ]. simpl. auto.
  - apply negb_true_iff in K.
    pose proof (handleAPIError_throws (issue ev st) e) as T.
    pose proof (handleAPIError_fields (issue ev st) e) as F.
    destruct (handleAPIError (issue ev st) e) as [st1 r].
    simpl in T, F. rewrite K in T. subst r.
    exists st1. split; [ reflexivity | ].
    destruct F as (F1 & F2 & F3 & F4 & F5 & F6 & F7).
    rewrite F1, F2, F4, F5, F6. auto.
Qed.

(** The state the loop starts from when the first fetch and the long poll
    both keep the function waiting. *)
Lemma polling_after_two (env : Env) (timeoutSecs : float) :
  keepsWaiting (responses env 0%nat) = true ->
  keepsWaiting (responses env 1%nat) = true ->
  exists st2,
    (forall fuel, polling env timeoutSecs fuel = pollLoop env timeoutSecs fuel st2)
    /\ isPending st2 = true /\ requests st2 = 2%nat
    /\ trace st2 = [GetTransactionByHash; LongWaitForTransaction]
    /\ backoffIntervalMs st2 = backoffAt 0
    /\ timeElapsed st2 = longWaitMs env / 1000.
Proof.
  intros K0 K1.
  destruct (@tryFetch_keepsWaiting env GetTransactionByHash initialState
              eq_refl K0) as (st1 & H1 & P1 & R1 & T1 & B1 & E1).
  simpl in R1, T1, B1.
  destruct (@tryFetch_keepsWaiting env LongWaitForTransaction st1 P1)
    as (st2 & H2 & P2 & R2 & T2 & B2 & E2).
  { rewrite R1. exact K1. }
  exists (setTimeElapsed (longWaitMs env / 1000) st2).
  split.
  - intros fuel. unfold polling. rewrite H1. unfold longWaitOnce.
    rewrite P1, H2. reflexivity.
  - simpl. rewrite R2, R1, T2, T1, B2, B1. auto.
Qed.

(** X4. When the long poll itself took at least the timeout, active
    polling makes no request: after the first fetch and the long poll,
    both of which left the transaction pending or not found,
    [waitForTransaction] ends at once, without a single sleep. *)
Theorem no_polling_after_slow_long_poll
    (D : float) (env : Env) (h : string)
    (options : option WaitForTransactionOptions) :
  keepsWaiting (responses env 0%nat) = true ->
  keepsWaiting (responses env 1%nat) = true ->
  ((timeoutSecsOf D options) <=? (longWaitMs env / 1000)) = true ->
  exists fin,
    (forall fuel, waitForTransaction D env fuel h options
                  = Some (conclude h (timeoutSecsOf D options)
                            (checkSuccessOf options) fin, fin))
    /\ trace fin = [GetTransactionByHash; LongWaitForTransaction]
    /\ (forall t, conclude h (timeoutSecsOf D options)
                    (checkSuccessOf options) fin <> Return t).
Proof.
  intros K0 K1 L.
  destruct (polling_after_two env (timeoutSecsOf D options) K0 K1)
    as (st2 & P & Pd & Rq & Tr & Bk & El).
  exists st2. split; [ | split; [ exact Tr | ] ].
  - intros fuel. unfold waitForTransaction. rewrite P.
    rewrite pollLoop_timed_out by (rewrite El; exact L). reflexivity.
  - intros t C.
    assert (polling env (timeoutSecsOf D options) 0 = Exited st2) as PE.
    { rewrite P. apply pollLoop_timed_out. rewrite El. exact L. }
    pose proof (polling_Ended env (timeoutSecsOf D options) 0) as E.
    rewrite PE in E. simpl in E. destruct E as (I & _ & _).
    pose proof (inv_pending I) as Hp. rewrite Pd in Hp.
    unfold conclude in C.
    destruct (lastTxn st2) as [t'|]; [ | destruct (lastError st2); discriminate ].
    rewrite <- Hp in C. discriminate.
Qed.

(** A loop that ended within its fuel ends the same way with more. *)
Lemma pollLoop_more_fuel (env : Env) (timeoutSecs : float) (fuel extra : nat) :
  forall st,
    ranOut (pollLoop env timeoutSecs fuel st) = false ->
    pollLoop env timeoutSecs (fuel + extra) st = pollLoop env timeoutSecs fuel st.
Proof.
  induction fuel as [|fuel IH]; intros st; simpl.
  - destruct (isPending st) eqn:Pd; simpl;
      [ | intros _; apply pollLoop_not_pending; exact Pd ].
    destruct ((timeoutSecs <=? (timeElapsed st))) eqn:L; simpl;
      [ intros _; apply pollLoop_timed_out; exact L | discriminate ].
  - destruct (isPending st); simpl; [ | reflexivity ].
    destruct ((timeoutSecs <=? (timeElapsed st))); simpl; [ reflexivity | ].
    destruct (responses env (requests st)) as [t | e].
    + destruct (isPendingType t); simpl; [ apply IH | reflexivity ].
    + destruct (handleAPIError (issue GetTransactionByHash st) e) as [st1 [e'|]];
        [ reflexivity | apply IH ].
Qed.

(** The loop, when [m] more responses keep it waiting and the next one
    settles the transaction, all before the timeout. *)
Lemma pollLoop_definite (env : Env) (timeoutSecs t0 : float)
    (t : TransactionResponse) (m : nat) :
  isPendingType t = false ->
  forall fuel st j,
    isPending st = true ->
    backoffIntervalMs st = backoffAt j ->
    timeElapsed st = elapsedAfter t0 j ->
    (forall i, (i < m)%nat ->
               keepsWaiting (responses env (requests st + i)) = true) ->
    responses env (requests st + m) = Resolved t ->
    (forall i, (i <= m)%nat ->
               (timeoutSecs <=? (elapsedAfter t0 (j + i))) = false) ->
    (m < fuel)%nat ->
    exists st',
      pollLoop env timeoutSecs fuel st = Exited st' /\
      lastTxn st' = Some t /\
      trace st' = trace st ++ pollEvents j m ++ [GetTransactionByHash] /\
      timeElapsed st' = elapsedAfter t0 (j + m).
Proof.
  intros Pt. induction m as [|m IH]; intros fuel st j Pd Bk El K R Tm Hf;
    (destruct fuel as [|fuel]; [ lia | ]);
    simpl pollLoop; rewrite Pd; simpl negb; cbv iota;
    (assert ((timeoutSecs <=? (timeElapsed st)) = false) as L0
        by (rewrite El; rewrite <- (Nat.add_0_r j); apply Tm; lia));
    rewrite L0.
  - rewrite Nat.add_0_r in R. rewrite R. simpl. rewrite Pt. simpl.
    eexists. split; [ reflexivity | ]. simpl.
    rewrite Nat.add_0_r. auto.
  - assert (forall st1,
               isPending st1 = true ->
               requests st1 = S (requests st) ->
               trace st1 = trace st ++ [GetTransactionByHash] ->
               backoffIntervalMs st1 = backoffIntervalMs st ->
               timeElapsed st1 = timeElapsed st ->
               exists st',
                 pollLoop env timeoutSecs fuel (sleepAndBackOff st1) = Exited st' /\
                 lastTxn st' = Some t /\
                 trace st' = trace st ++ pollEvents j (S m) ++ [GetTransactionByHash] /\
                 timeElapsed st' = elapsedAfter t0 (j + S m)) as Next.
    { intros st1 P1 R1 T1 B1 E1.
      destruct (IH fuel (sleepAndBackOff st1) (S j)) as (st' & H1 & H2 & H3 & H4).
      - exact P1.
      - simpl. rewrite B1, Bk. reflexivity.
      - simpl. rewrite B1, E1, Bk, El. reflexivity.
      - intros i Hi. simpl. rewrite R1.
        replace (S (requests st) + i)%nat with (requests st + S i)%nat by lia.
        apply K. lia.
      - simpl. rewrite R1.
        replace (S (requests st) + m)%nat with (requests st + S m)%nat by lia.
        exact R.
      - intros i Hi.
        replace (S j + i)%nat with (j + S i)%nat by lia. apply Tm. lia.
      - lia.
      - exists st'. split; [ exact H1 | split; [ exact H2 | split ] ].
        + rewrite H3. simpl trace. rewrite T1, B1, Bk, pollEvents_succ.
          rewrite <- !app_assoc. reflexivity.
        + rewrite H4. f_equal. lia. }
    pose proof (K 0%nat ltac:(lia)) as K0. rewrite Nat.add_0_r in K0.
    destruct (responses env (requests st)) as [t' | e] eqn:Resp; simpl in K0.
    + simpl. rewrite K0. simpl. apply Next; simpl; auto.
    + apply negb_true_iff in K0.
      pose proof (handleAPIError_throws (issue GetTransactionByHash st) e) as T.
      pose proof (handleAPIError_fields (issue GetTransactionByHash st) e) as F.
      destruct (handleAPIError (issue GetTransactionByHash st) e) as [st1 r].
      simpl in T, F. rewrite K0 in T. subst r.
      destruct F as (F1 & F2 & F3 & F4 & F5 & F6 & F7).
      apply Next; [ rewrite F1 | rewrite F5 | rewrite F6 | rewrite F4
                  | rewrite F2 ]; simpl; auto.
Qed.

(** X5. When the first fetch, the long poll and the next [n] polls all
    leave the transaction pending or not found (or fail with a retried
    error), the poll after them finds it committed, and every one of these
    polls starts before the timeout, then [waitForTransaction] ends with
    the result for that transaction after exactly [n] sleeps, of 200 ms
    and then 1.5 times the one before (exactly 200 * 1.5^k for the first
    31), and its counter is the time of the long poll with these sleeps
    added one by one, in the arithmetic of numbers. *)
Theorem retries_then_committed
    (D : float) (env : Env) (h : string)
    (options : option WaitForTransactionOptions)
    (n : nat) (t : TransactionResponse) :
  (forall k, (k < n + 2)%nat -> keepsWaiting (responses env k) = true) ->
  responses env (n + 2)%nat = Resolved t ->
  isPendingType t = false ->
  (forall k, (k <= n)%nat ->
             (timeoutSecsOf D options
                <=? elapsedAfter (longWaitMs env / 1000) k) = false) ->
  exists fin,
    (forall fuel, (n < fuel)%nat ->
                  waitForTransaction D env fuel h options
                  = Some (resultFor h (checkSuccessOf options) t, fin))
    /\ trace fin = [GetTransactionByHash; LongWaitForTransaction]
                     ++ pollEvents 0 n ++ [GetTransactionByHash]
    /\ timeElapsed fin = elapsedAfter (longWaitMs env / 1000) n
    /\ (forall k, (k < n)%nat -> (k <= 30)%nat ->
                  (valueOf (backoffAt k) == 200 * (3 # 2) ^ Z.of_nat k)%Q).
Proof.
  intros K R Pt Tm.
  destruct (polling_after_two env (timeoutSecsOf D options)
              (K 0%nat ltac:(lia)) (K 1%nat ltac:(lia)))
    as (st2 & P & Pd & Rq & Tr & Bk & El).
  assert (forall fuel, (n < fuel)%nat ->
            exists st',
              pollLoop env (timeoutSecsOf D options) fuel st2 = Exited st' /\
              lastTxn st' = Some t /\
              trace st' = trace st2 ++ pollEvents 0 n ++ [GetTransactionByHash] /\
              timeElapsed st' = elapsedAfter (longWaitMs env / 1000) (0 + n))
    as Run.
  { intros fuel Hf.
    apply (@pollLoop_definite env (timeoutSecsOf D options)
             (longWaitMs env / 1000) t n Pt fuel st2 0%nat);
      try assumption.
    - intros i Hi. rewrite Rq. apply K. lia.
    - rewrite Rq. replace (2 + n)%nat with (n + 2)%nat by lia. exact R. }
  destruct (Run (S n) ltac:(lia)) as (fin & H1 & H2 & H3 & H4).
  exists fin. split; [ | split; [ | split ] ].
  - intros fuel Hf. unfold waitForTransaction. rewrite P.
    replace fuel with (S n + (fuel - S n))%nat by lia.
    rewrite pollLoop_more_fuel by (rewrite H1; reflexivity).
    rewrite H1, (conclude_settled _ _ _ _ H2 Pt). reflexivity.
  - rewrite H3, Tr. reflexivity.
  - exact H4.
  - intros k _ Hk. apply backoffAt_exact. exact Hk.
Qed.

(** X19. A [WaitForTransactionError] always carries a snapshot, and the
    snapshot is pending: the source's other message, "Fetching transaction
    ... failed and timed out", is never produced, because without a
    snapshot there is always a remembered error to throw. *)
Theorem wait_error_has_pending_snapshot
    (D : float) (env : Env) (fuel : nat) (h : string)
    (options : option WaitForTransactionOptions)
    (message : ErrorMessage) (last : option TransactionResponse) (fin : State) :
  waitForTransaction D env fuel h options
  = Some (Throw (WaitForTransactionError message last), fin) ->
  exists t, last = Some t /\ lastTxn fin = Some t /\ isPendingType t = true /\
            message = TimedOutInPendingState h (timeoutSecsOf D options).
Proof. apply timeout_error_carries_snapshot. Qed.

(** ** Concrete runs *)

(** Pending twice, then executed. *)
Definition transportExecuted : Env :=
  {| responses := fun k =>
       match k with
       | O | S O => Resolved pendingTxn
       | _ => Resolved executedTxn
       end;
     longWaitMs := 100 |}.

(** Executed at the first fetch. *)
Definition transportDone : Env :=
  {| responses := fun _ => Resolved executedTxn; longWaitMs := 0 |}.

(** Not found three times, pending once, then executed. *)
Definition transportSlow : Env :=
  {| responses := fun k =>
       match k with
       | O | S O | S (S O) =>
           Rejected (CedraApiError 404 "transaction not found")
       | S (S (S O)) => Resolved pendingTxn
       | _ => Resolved executedTxn
       end;
     longWaitMs := 100 |}.

Definition noTime : option WaitForTransactionOptions :=
  Some {| opt_timeoutSecs := Some 0; opt_checkSuccess := None |}.

Lemma rejection_classification_witness :
  exists out fin,
    waitForTransaction 20 transportDown 5 "0xabc" None = Some (out, fin)
    /\ out = Throw (Raised (OtherError None "fetch failed"))
    /\ requests fin = 1%nat
    /\ endsWithRequest (trace fin) = true.
Proof.
  eexists. eexists. split; [ vm_compute; reflexivity | ].
  match goal with
  | |- ?out = _ /\ requests ?fin = _ /\ _ =>
      apply (proj1 (@rejection_classification 20 transportDown 5 "0xabc"
                      None out fin 0 (OtherError None "fetch failed")
                      ltac:(vm_compute; reflexivity) ltac:(simpl; lia) eq_refl))
  end.
  left. reflexivity.
Defined.

Lemma returned_transaction_witness :
  exists fin,
    waitForTransaction 20 transportExecuted 5 "0xabc" None
    = Some (Return executedTxn, fin)
    /\ isPendingType executedTxn = false
    /\ (checkSuccessOf None = true -> success executedTxn = true)
    /\ exists k, requests fin = S k
                 /\ responses transportExecuted k = Resolved executedTxn.
Proof.
  eexists. split; [ vm_compute; reflexivity | ].
  match goal with
  | |- _ /\ _ /\ exists k, requests ?fin = _ /\ _ =>
      apply (@returned_transaction 20 transportExecuted 5 "0xabc" None
               executedTxn fin ltac:(vm_compute; reflexivity))
  end.
Defined.

Lemma already_committed_witness :
  exists fin,
    (forall fuel, waitForTransaction 20 transportDone fuel "0xabc" None
                  = Some (resultFor "0xabc" (checkSuccessOf None) executedTxn, fin))
    /\ trace fin = [GetTransactionByHash]
    /\ requests fin = 1%nat.
Proof.
  apply (@already_committed 20 transportDone "0xabc" None executedTxn);
    reflexivity.
Defined.

Lemma no_polling_after_slow_long_poll_witness :
  exists fin,
    (forall fuel, waitForTransaction 20 transportAlwaysPending fuel "0xabc" noTime
                  = Some (conclude "0xabc" (timeoutSecsOf 20 noTime)
                            (checkSuccessOf noTime) fin, fin))
    /\ trace fin = [GetTransactionByHash; LongWaitForTransaction]
    /\ (forall t, conclude "0xabc" (timeoutSecsOf 20 noTime)
                    (checkSuccessOf noTime) fin <> Return t).
Proof.
  apply (@no_polling_after_slow_long_poll 20 transportAlwaysPending "0xabc" noTime);
    reflexivity.
Defined.

Lemma retries_then_committed_witness :
  exists fin,
    (forall fuel, (2 < fuel)%nat ->
                  waitForTransaction 20 transportSlow fuel "0xabc" None
                  = Some (resultFor "0xabc" (checkSuccessOf None) executedTxn, fin))
    /\ trace fin = [GetTransactionByHash; LongWaitForTransaction]
                     ++ pollEvents 0 2 ++ [GetTransactionByHash]
    /\ timeElapsed fin = elapsedAfter (longWaitMs transportSlow / 1000) 2
    /\ (forall k, (k < 2)%nat -> (k <= 30)%nat ->
                  (valueOf (backoffAt k) == 200 * (3 # 2) ^ Z.of_nat k)%Q).
Proof.
  apply (@retries_then_committed 20 transportSlow "0xabc" None 2 executedTxn).
  - intros k Hk.
    destruct k as [|[|[|[|k]]]]; try reflexivity. simpl in Hk. lia.
  - reflexivity.
  - reflexivity.
  - intros k Hk.
    destruct k as [|[|[|k]]]; try reflexivity. lia.
Defined.

Lemma wait_error_has_pending_snapshot_witness :
  exists fin t,
    waitForTransaction 20 transportAlwaysPending 5 "0xabc" noTime
    = Some (Throw (WaitForTransactionError
                     (TimedOutInPendingState "0xabc" 0) (Some pendingTxn)), fin)
    /\ Some pendingTxn = Some t /\ lastTxn fin = Some t
    /\ isPendingType t = true
    /\ TimedOutInPendingState "0xabc" 0
       = TimedOutInPendingState "0xabc" (timeoutSecsOf 20 noTime).
Proof.
  eexists.
  assert (waitForTransaction 20 transportAlwaysPending 5 "0xabc" noTime
          = Some (Throw (WaitForTransactionError
                           (TimedOutInPendingState "0xabc" 0) (Some pendingTxn)), _))
    as W by (vm_compute; reflexivity).
  destruct (wait_error_has_pending_snapshot _ _ _ _ _ W) as (t & H).
  exists t. split; [ exact W | exact H ].
Defined.

End WaitFacts.

(* ------------------------------------------------------------------ *)

Module IndexerFacts.

Import Indexer.
Local Open Scope string_scope.
Local Open Scope list_scope.
Local Open Scope Z_scope.

Section Properties.

Variable ProcessorType : Type.
Variable env : Env.
Variable minimumLedgerVersion : Z.
Variable processorType : option ProcessorType.

(** The request the loop makes. *)
Definition request : Event ProcessorType :=
  match processorType with
  | None => GetIndexerLastSuccessVersion ProcessorType
  | Some p => GetProcessorStatus p
  end.

(** [n] requests, each followed by its sleep of 200 ms. *)
Definition rounds (n : nat) : list (Event ProcessorType) :=
  flat_map (fun _ : nat => [request; Sleep ProcessorType 200]) (seq 0 n).

Lemma rounds_succ (n : nat) :
  rounds (S n) = rounds n ++ [request; Sleep ProcessorType 200].
Proof.
  unfold rounds. rewrite seq_S, flat_map_app. simpl. reflexivity.
Qed.

(** The first [n] requests were each answered with a version below the
    minimum, and the clock readings compared before them were within the
    timeout. *)
Definition History (n : nat) : Prop :=
  (forall j, (j < n)%nat ->
             exists v, lastSuccessVersion env j = Version v /\
                       v < minimumLedgerVersion)
  /\ (forall c, (1 <= c <= n)%nat ->
                now env c - now env 0 <= timeoutMilliseconds).

(** What holds whenever the loop condition is evaluated. *)
Record Waiting (st : State ProcessorType) : Prop := {
  w_history : History (requests st);
  w_reads : clockReads st = S (requests st);
  w_trace : trace st = rounds (requests st);
  w_first : requests st = 0%nat -> indexerVersion st = -1;
  w_behind : requests st <> 0%nat -> indexerVersion st < minimumLedgerVersion
}.

(** How the loop can end. *)
Definition Ended (r : Ending ProcessorType) : Prop :=
  match r with
  | Returned st =>
      (minimumLedgerVersion <= indexerVersion st) /\
      ((requests st = 0%nat /\ indexerVersion st = -1 /\ trace st = []) \/
       exists k,
         requests st = S k /\ History k /\
         now env (S k) - now env 0 <= timeoutMilliseconds /\
         lastSuccessVersion env k = Version (indexerVersion st) /\
         trace st = rounds k ++ [request])
  | Threw (Raised e) st =>
      exists k,
        requests st = S k /\ History k /\
        now env (S k) - now env 0 <= timeoutMilliseconds /\
        lastSuccessVersion env k = Failed e /\
        trace st = rounds k ++ [request]
  | Threw (Error message) st =>
      message = "waitForLastSuccessIndexerVersionSync timeout" /\
      History (requests st) /\
      timeoutMilliseconds < now env (S (requests st)) - now env 0 /\
      trace st = rounds (requests st)
  | OutOfFuel st =>
      History (requests st) /\ trace st = rounds (requests st)
  end.

Lemma syncLoop_Ended (fuel : nat) :
  forall st,
    Waiting st ->
    Ended (syncLoop env minimumLedgerVersion (now env 0) processorType fuel st).
Proof.
  assert (forall st, Waiting st ->
                     minimumLedgerVersion <= indexerVersion st ->
                     Ended (Returned st)) as Stop.
  { intros st W Ge. simpl. split; [ exact Ge | ].
    destruct (Nat.eq_dec (requests st) 0) as [Rq | Rq].
    - left. split; [ exact Rq | ]. split; [ apply (w_first W); exact Rq | ].
      rewrite (w_trace W), Rq. reflexivity.
    - pose proof (w_behind W Rq). lia. }
  induction fuel as [|fuel IH]; intros st W; simpl.
  - destruct (Z.ltb_spec (indexerVersion st) minimumLedgerVersion) as [Lt | Ge];
      [ | apply Stop; assumption ].
    simpl. split; [ exact (w_history W) | exact (w_trace W) ].
  - destruct (Z.ltb_spec (indexerVersion st) minimumLedgerVersion) as [Lt | Ge];
      [ | apply Stop; assumption ].
    rewrite (w_reads W).
    destruct (Z.ltb_spec timeoutMilliseconds
                (now env (S (requests st)) - now env 0)) as [Late | InTime].
    + simpl. split; [ reflexivity | ].
      split; [ exact (w_history W) | ].
      split; [ exact Late | exact (w_trace W) ].
    + fold request. cbn [requests trace clockReads indexerVersion].
      destruct (lastSuccessVersion env (requests st)) as [v | e] eqn:F.
      * destruct (Z.leb_spec minimumLedgerVersion v) as [Done | Behind].
        -- simpl. split; [ exact Done | ]. right. exists (requests st).
           split; [ reflexivity | ]. split; [ exact (w_history W) | ].
           split; [ exact InTime | ]. split; [ exact F | ].
           rewrite (w_trace W). reflexivity.
        -- apply IH. constructor; simpl.
           ++ destruct (w_history W) as [Hv Hc]. split.
              ** intros j Hj.
                 destruct (Nat.eq_dec j (requests st)) as [-> | Hne];
                   [ exists v; auto | apply Hv; lia ].
              ** intros c Hcc.
                 destruct (Nat.eq_dec c (S (requests st))) as [-> | Hne];
                   [ exact InTime | apply Hc; lia ].
           ++ reflexivity.
           ++ rewrite (w_trace W), rounds_succ, <- app_assoc. reflexivity.
           ++ discriminate.
           ++ intros _. exact Behind.
      * simpl. exists (requests st). split; [ reflexivity | ].
        split; [ exact (w_history W) | ]. split; [ exact InTime | ].
        split; [ exact F | ]. rewrite (w_trace W). reflexivity.
Qed.

Lemma waitForIndexer_Ended (fuel : nat) :
  Ended (waitForIndexer env fuel minimumLedgerVersion processorType).
Proof.
  unfold waitForIndexer. apply syncLoop_Ended.
  constructor; simpl; try reflexivity.
  - split; intros; lia.
  - intros H. congruence.
Qed.

(** X6. When [waitForIndexer] returns, the indexer is at the requested
    version: either the minimum is below 0 and nothing was asked, or the
    last request made was answered with a version at or above the minimum,
    after every earlier one had been answered below it. Between two
    requests there is exactly one sleep of 200 ms, and none after the
    last. *)
Theorem indexer_synced_on_return (fuel : nat) (st : State ProcessorType) :
  waitForIndexer env fuel minimumLedgerVersion processorType = Returned st ->
  (minimumLedgerVersion <= -1 /\ requests st = 0%nat /\ trace st = [])
  \/
  (-1 < minimumLedgerVersion /\
   exists k v,
     requests st = S k /\ lastSuccessVersion env k = Version v /\
     minimumLedgerVersion <= v /\
     (forall j, (j < k)%nat ->
                exists v', lastSuccessVersion env j = Version v' /\
                           v' < minimumLedgerVersion) /\
     trace st = rounds k ++ [request]).
Proof.
  intros H. pose proof (waitForIndexer_Ended fuel) as E.
  rewrite H in E. simpl in E.
  destruct E as (Ge & [(Rq & V & Tr) | (k & Rq & (Hv & _) & _ & F & Tr)]).
  - left. split; [ lia | auto ].
  - right. split.
    + destruct (Z.ltb_spec (-1) minimumLedgerVersion) as [? | Neg];
        [ assumption | ].
      exfalso. unfold waitForIndexer in H.
      destruct fuel; simpl in H;
        (destruct (Z.ltb_spec (-1) minimumLedgerVersion); [ lia | ]);
        injection H as <-; discriminate.
    + exists k, (indexerVersion st). auto.
Qed.

(** X7. [waitForIndexer] does not retry a failed request: whatever a
    version request throws is thrown to the caller at once, and no further
    request is made. *)
Theorem indexer_failure_not_retried (fuel k : nat) (e : Transaction.FetchError) :
  let r := waitForIndexer env fuel minimumLedgerVersion processorType in
  (k < requests (stateOf r))%nat ->
  lastSuccessVersion env k = Failed e ->
  r = Threw (Raised e) (stateOf r) /\ requests (stateOf r) = S k.
Proof.
  intros r Hk F. pose proof (waitForIndexer_Ended fuel) as E. fold r in E.
  assert (forall n, History n -> (k < n)%nat -> False) as Hist.
  { intros n (Hv & _) Hn. destruct (Hv k Hn) as (v & Hv' & _). congruence. }
  destruct r as [st | [m | e'] st | st]; simpl in *.
  - destruct E as (_ & [(Rq & _) | (k' & Rq & H & _ & F' & _)]); [ lia | ].
    exfalso. destruct (Nat.eq_dec k k') as [-> | ?];
      [ congruence | apply (Hist k' H); lia ].
  - destruct E as (_ & H & _). exfalso. exact (Hist _ H Hk).
  - destruct E as (k' & Rq & H & _ & F' & _).
    destruct (Nat.eq_dec k k') as [-> | ?].
    + split; [ congruence | exact Rq ].
    + exfalso. apply (Hist k' H). lia.
  - destruct E as (H & _). exfalso. exact (Hist _ H Hk).
Qed.

(** X8. [waitForIndexer] throws its timeout error only after reading a
    clock more than 3000 ms past the start; at exactly 3000 ms it still
    asks. Every answer it had got by then was below the minimum. *)
Theorem indexer_timeout (fuel : nat) (message : string)
    (st : State ProcessorType) :
  waitForIndexer env fuel minimumLedgerVersion processorType
  = Threw (Error message) st ->
  message = "waitForLastSuccessIndexerVersionSync timeout"
  /\ 3000 < now env (S (requests st)) - now env 0
  /\ (forall c, (1 <= c <= requests st)%nat -> now env c - now env 0 <= 3000)
  /\ (forall j, (j < requests st)%nat ->
                exists v, lastSuccessVersion env j = Version v /\
                          v < minimumLedgerVersion)
  /\ trace st = rounds (requests st).
Proof.
  intros H. pose proof (waitForIndexer_Ended fuel) as E.
  rewrite H in E. simpl in E. destruct E as (M & (Hv & Hc) & Late & Tr).
  auto.
Qed.

(** ** Termination, for a clock that advances with the sleeps *)

(** Each reading of the clock in the loop is at least 200 ms after the one
    before it (a sleep of 200 ms lies between them), and the first is not
    before the start. *)
Definition ClockAdvances : Prop :=
  now env 0 <= now env 1 /\
  forall c, (1 <= c)%nat -> now env c + 200 <= now env (S c).

Lemma clock_lower_bound :
  ClockAdvances ->
  forall c, (1 <= c)%nat -> 200 * (Z.of_nat c - 1) <= now env c - now env 0.
Proof.
  intros [H0 Hs] c Hc. induction c as [|c IH]; [ lia | ].
  destruct c as [|c]; [ simpl; lia | ].
  specialize (IH ltac:(lia)). specialize (Hs (S c) ltac:(lia)). lia.
Qed.

Lemma syncLoop_enough (fuel : nat) :
  ClockAdvances ->
  forall st,
    clockReads st = S (requests st) ->
    (requests st <= 16)%nat ->
    (17 <= requests st + fuel)%nat ->
    (forall extra,
        syncLoop env minimumLedgerVersion (now env 0) processorType (fuel + extra) st
        = syncLoop env minimumLedgerVersion (now env 0) processorType fuel st)
    /\ match syncLoop env minimumLedgerVersion (now env 0) processorType fuel st
       with OutOfFuel _ => False | _ => True end.
Proof.
  intros Clock. induction fuel as [|fuel IH]; intros st Rd Hr Hf; [ lia | ].
  cbn [Nat.add syncLoop].
  destruct (indexerVersion st <? minimumLedgerVersion); [ | auto ].
  rewrite Rd.
  destruct (Z.ltb_spec timeoutMilliseconds
              (now env (S (requests st)) - now env 0)) as [Late | InTime];
    [ auto | ].
  assert (requests st < 16)%nat as Hlt.
  { destruct (Nat.eq_dec (requests st) 16) as [Heq | ?]; [ | lia ].
    pose proof (clock_lower_bound Clock (c := S (requests st)) ltac:(lia)) as B.
    rewrite Heq in B, InTime. unfold timeoutMilliseconds in InTime. lia. }
  cbn [requests trace clockReads indexerVersion].
  destruct (lastSuccessVersion env (requests st)) as [v | e]; [ | auto ].
  destruct (minimumLedgerVersion <=? v); [ auto | ].
  apply IH; simpl; lia.
Qed.

(** Seventeen iterations are enough, and more change nothing. *)
Lemma waitForIndexer_enough :
  ClockAdvances ->
  (forall extra,
      waitForIndexer env (17 + extra) minimumLedgerVersion processorType
      = waitForIndexer env 17 minimumLedgerVersion processorType)
  /\ match waitForIndexer env 17 minimumLedgerVersion processorType
     with OutOfFuel _ => False | _ => True end.
Proof.
  intros Clock. unfold waitForIndexer.
  apply (@syncLoop_enough 17 Clock); cbn [clockReads requests]; lia.
Qed.

(** An ending other than by exhaustion comes after at most 16 requests. *)
Lemma Ended_requests_bound (r : Ending ProcessorType) :
  ClockAdvances ->
  Ended r ->
  match r with OutOfFuel _ => False | _ => True end ->
  (requests (stateOf r) <= 16)%nat.
Proof.
  intros Clock E Definite. pose proof (clock_lower_bound Clock) as B.
  destruct r as [st | [m | e] st | st]; cbn [stateOf]; cbn [Ended] in E;
    unfold History, timeoutMilliseconds in E.
  - destruct E as (_ & [(Rq & _) | (k & Rq & _ & T & _)]); [ lia | ].
    specialize (B (S k) ltac:(lia)). lia.
  - destruct E as (_ & (_ & Hc) & _).
    destruct (requests st) as [|n] eqn:Rq; [ lia | ].
    specialize (Hc (S n) ltac:(lia)). specialize (B (S n) ltac:(lia)). lia.
  - destruct E as (k & Rq & _ & T & _).
    specialize (B (S k) ltac:(lia)). lia.
  - destruct Definite.
Qed.

(** X9. With such a clock [waitForIndexer] ends, with the same result from
    17 allowed iterations on, after at most 16 requests: it returns, or
    throws what a request threw, or throws its timeout error. *)
Theorem indexer_terminates :
  ClockAdvances ->
  exists r,
    (forall fuel, (17 <= fuel)%nat ->
                  waitForIndexer env fuel minimumLedgerVersion processorType = r)
    /\ (forall st, r <> OutOfFuel st)
    /\ (requests (stateOf r) <= 16)%nat.
Proof.
  intros Clock. destruct (waitForIndexer_enough Clock) as [Same Definite].
  pose proof (waitForIndexer_Ended 17) as E.
  generalize dependent
    (waitForIndexer env 17 minimumLedgerVersion processorType).
  intros r Same Definite E. exists r. split; [ | split ].
  - intros fuel Hf. replace fuel with (17 + (fuel - 17))%nat by lia.
    apply Same.
  - intros st ->. exact Definite.
  - exact (@Ended_requests_bound r Clock E Definite).
Qed.

End Properties.

(** ** Concrete runs *)

(** A clock read every 250 ms and an indexer that advances by 10 versions
    between requests. *)
Definition indexerCatchingUp : Env :=
  {| now := fun k => 1000 + 250 * Z.of_nat k;
     lastSuccessVersion := fun k => Version (10 * Z.of_nat k) |}.

(** The second request fails. *)
Definition indexerFailing : Env :=
  {| now := fun k => 1000 + 250 * Z.of_nat k;
     lastSuccessVersion := fun k =>
       match k with
       | S O => Failed (Transaction.CedraApiError 500 "indexer unavailable")
       | _ => Version 0
       end |}.

(** A clock read every second and an indexer that stands still. *)
Definition indexerStuck : Env :=
  {| now := fun k => 1000 * Z.of_nat k;
     lastSuccessVersion := fun _ => Version 0 |}.

Lemma indexer_synced_on_return_witness :
  exists st k v,
    @waitForIndexer string indexerCatchingUp 10 25 None = Returned st
    /\ requests st = S k
    /\ lastSuccessVersion indexerCatchingUp k = Version v
    /\ 25 <= v.
Proof.
  assert (exists st,
             @waitForIndexer string indexerCatchingUp 10 25 None = Returned st)
    as [st H] by (eexists; vm_compute; reflexivity).
  destruct (@indexer_synced_on_return string indexerCatchingUp 25 None 10 st H)
    as [(Neg & _) | (_ & k & v & Rq & F & Ge & _)]; [ lia | ].
  exists st, k, v. auto.
Defined.

Lemma indexer_failure_not_retried_witness :
  let r := @waitForIndexer string indexerFailing 10 25 None in
  r = Threw (Raised (Transaction.CedraApiError 500 "indexer unavailable"))
        (stateOf r)
  /\ requests (stateOf r) = 2%nat.
Proof.
  apply (@indexer_failure_not_retried string indexerFailing 25 None 10 1
           (Transaction.CedraApiError 500 "indexer unavailable"));
    [ vm_compute; lia | reflexivity ].
Defined.

Lemma indexer_timeout_witness :
  exists st,
    @waitForIndexer string indexerStuck 10 5 None
    = Threw (Error "waitForLastSuccessIndexerVersionSync timeout") st
    /\ requests st = 3%nat
    /\ 3000 < now indexerStuck (S (requests st)) - now indexerStuck 0
    /\ now indexerStuck 3 - now indexerStuck 0 <= 3000.
Proof.
  eexists.
  assert (@waitForIndexer string indexerStuck 10 5 None
          = Threw (Error "waitForLastSuccessIndexerVersionSync timeout") _) as H
      by (vm_compute; reflexivity).
  destruct (@indexer_timeout string indexerStuck 5 None 10 _ _ H)
    as (_ & Late & InTime & _).
  split; [ exact H | ]. split; [ reflexivity | ].
  split; [ exact Late | apply InTime; simpl; lia ].
Defined.

Lemma indexer_terminates_witness :
  exists r,
    (forall fuel, (17 <= fuel)%nat ->
                  @waitForIndexer string indexerCatchingUp fuel 1000 None = r)
    /\ (forall st, r <> OutOfFuel st)
    /\ (requests (stateOf r) <= 16)%nat.
Proof.
  apply (@indexer_terminates string indexerCatchingUp 1000 None).
  split; [ simpl; lia | ].
  intros c Hc. cbn [now indexerCatchingUp]. lia.
Defined.

End IndexerFacts.

(* ------------------------------------------------------------------ *)

Module BlocksFacts.

Import Account Blocks.
Local Open Scope list_scope.
Local Open Scope Z_scope.

(** ** The page requests *)

Lemma pageRequests_done (i lastVersion : Z) :
  lastVersion <= i -> pageRequests i lastVersion = [].
Proof.
  intros H. simp pageRequests.
  destruct (Z_lt_dec i lastVersion); [ lia | reflexivity ].
Qed.

Lemma pageRequests_step (i lastVersion : Z) :
  i < lastVersion ->
  pageRequests i lastVersion
  = (i, Z.min 100 (lastVersion - i + 1)) :: pageRequests (i + 100) lastVersion.
Proof.
  intros H. rewrite pageRequests_equation_1.
  destruct (Z_lt_dec i lastVersion); [ reflexivity | lia ].
Qed.

(** X10. Every page request of [fillBlockTransactions] starts a whole
    number of hundreds after the first missing version and before the last
    version of the block, and asks for at least 2 and at most 100
    transactions. *)
Theorem page_request_bounds (i lastVersion offset limit : Z) :
  In (offset, limit) (pageRequests i lastVersion) ->
  i <= offset < lastVersion
  /\ (offset - i) mod 100 = 0
  /\ limit = Z.min 100 (lastVersion - offset + 1)
  /\ 2 <= limit <= 100.
Proof.
  funelim (pageRequests i lastVersion); intros HIn.
  - destruct HIn as [Here | HIn].
    + injection Here as <- <-. rewrite Z.sub_diag. repeat split; lia.
    + destruct (H _ _ HIn) as (Ho & Hm & Hl & Hb).
      repeat split; try lia.
      replace (offset - i) with (offset - (i + 100) + 1 * 100) by lia.
      rewrite Z_mod_plus_full. exact Hm.
  - destruct HIn.
Qed.

Lemma map_seq_offset (i : Z) (c n : nat) :
  forall s,
    map (fun k => i + Z.of_nat k) (seq (c + s) n)
    = map (fun k => i + Z.of_nat c + Z.of_nat k) (seq s n).
Proof.
  induction n as [|n IH]; intros s; simpl; [ reflexivity | ].
  f_equal; [ lia | ].
  rewrite <- IH. f_equal. f_equal. lia.
Qed.

Lemma versionsOf_app (i a b : Z) :
  0 <= a -> 0 <= b ->
  versionsOf (i, a) ++ versionsOf (i + a, b) = versionsOf (i, a + b).
Proof.
  intros Ha Hb. unfold versionsOf. simpl.
  rewrite Z2Nat.inj_add, seq_app, map_app by lia. f_equal.
  rewrite Nat.add_0_l.
  rewrite <- (Nat.add_0_r (Z.to_nat a)) at 1.
  rewrite map_seq_offset, Z2Nat.id by lia. reflexivity.
Qed.

(** The number of versions the page requests ask for, [d] being the
    distance from the first missing version to the last version. *)
Definition requestedCount (d : Z) : Z :=
  if d mod 100 =? 0 then d else d + 1.

(** The page requests ask for consecutive versions, from the first
    missing one on, without gap or overlap. They end at the last version of
    the block, except when the distance from the first missing version to
    the last one is a multiple of 100 (0 included): then the last version
    itself is not asked for. *)
Lemma page_requests_cover (i lastVersion : Z) :
  flat_map versionsOf (pageRequests i lastVersion)
  = versionsOf (i, requestedCount (lastVersion - i)).
Proof.
  funelim (pageRequests i lastVersion).
  - cbn [flat_map]. rewrite H. clear H Heq Heqcall.
    unfold requestedCount.
    replace (lastVersion - i) with (lastVersion - (i + 100) + 1 * 100) at 2 by lia.
    rewrite Z_mod_plus_full.
    destruct (Z_le_dec 100 (lastVersion - i)) as [Far | Near].
    + rewrite Z.min_l by lia.
      destruct (Z.eqb_spec ((lastVersion - (i + 100)) mod 100) 0) as [M | M].
      * rewrite versionsOf_app by lia. f_equal. f_equal. lia.
      * rewrite versionsOf_app by lia. f_equal. f_equal. lia.
    + rewrite Z.min_r by lia.
      assert ((lastVersion - (i + 100)) mod 100 = lastVersion - i) as M.
      { replace (lastVersion - (i + 100)) with (lastVersion - i + (-1) * 100) by lia.
        rewrite Z_mod_plus_full. apply Z.mod_small. lia. }
      rewrite M.
      destruct (Z.eqb_spec (lastVersion - i) 0) as [? | _]; [ lia | ].
      replace (versionsOf (i + 100, lastVersion - (i + 100) + 1)) with (@nil Z).
      * rewrite app_nil_r. reflexivity.
      * unfold versionsOf. simpl.
        replace (Z.to_nat (lastVersion - (i + 100) + 1)) with 0%nat by lia.
        reflexivity.
  - clear Heq Heqcall. unfold requestedCount, versionsOf. simpl.
    destruct (Z.eqb_spec ((lastVersion - i) mod 100) 0) as [M | M].
    + replace (Z.to_nat (lastVersion - i)) with 0%nat by lia. reflexivity.
    + replace (Z.to_nat (lastVersion - i + 1)) with 0%nat; [ reflexivity | ].
      assert (lastVersion - i <> 0) by (intros E; rewrite E in M; apply M; reflexivity).
      lia.
Qed.

(** ** Filling a block *)

Section Fill.

Variable Txn : Type.
Variable versionOf : Txn -> option Z.
Variable E : Type.
Variable getTransactions : Z -> Z -> Result E (list Txn).

(** [block.transactions ?? []] *)
Definition presentOf (block : Block Txn) : list Txn :=
  match transactions block with
  | Some txns => txns
  | None => []
  end.

(** The block with its transactions replaced. *)
Definition withTransactions (block : Block Txn) (txns : list Txn) : Block Txn :=
  {| first_version := first_version block;
     last_version := last_version block;
     transactions := Some txns |}.

(** The rejections among the answers, and the transactions of an answer. *)
Definition failuresOf (answers : list (Result E (list Txn))) : list E :=
  flat_map (fun r => match r with Err e => [e] | Ok _ => [] end) answers.

Definition pageOf (answer : Result E (list Txn)) : list Txn :=
  match answer with Ok txns => txns | Err _ => [] end.

Lemma settleAll_spec (answers : list (Result E (list Txn))) :
  settleAll answers
  = match failuresOf answers with
    | [] => Ok (map pageOf answers)
    | errs => Err errs
    end.
Proof.
  induction answers as [|r rest IH]; [ reflexivity | ].
  simpl. rewrite IH.
  destruct r as [txns | e]; simpl;
    destruct (failuresOf rest); reflexivity.
Qed.

(** X11. With [withTransactions] set, the versions [fillBlockTransactions]
    asks the node for are the consecutive versions after the version of
    the last transaction present (or from the block's first version, when
    that cannot be read), up to the block's last version, but without the
    last version itself when the distance from the first missing version
    to it is a multiple of 100. *)
Theorem fill_requests (w : option bool) (block : Block Txn) :
  wanted w = true ->
  let latest := latestVersionOf versionOf block (presentOf block) in
  flat_map versionsOf
    (snd (fillBlockTransactions versionOf getTransactions w block))
  = versionsOf (latest + 1,
                requestedCount (last_version block - (latest + 1))).
Proof.
  intros W latest. unfold fillBlockTransactions. rewrite W.
  fold (presentOf block). fold latest.
  destruct (Z.eqb_spec latest (last_version block)) as [Heq | Hne].
  - simpl. rewrite Heq.
    replace (last_version block - (last_version block + 1)) with (-1) by lia.
    reflexivity.
  - rewrite <- page_requests_cover.
    destruct (settleAll _); reflexivity.
Qed.

(** X12. [fillBlockTransactions] asks the node for nothing, and returns
    the block with the transactions it had, when [withTransactions] is not
    set, and also when it is set and at most the last version of the block
    is missing: a block that lacks only its last transaction is returned as
    it is. *)
Theorem fill_nothing_to_fetch (w : option bool) (block : Block Txn) :
  (wanted w = false ->
   fillBlockTransactions versionOf getTransactions w block = (Ok block, []))
  /\
  (wanted w = true ->
   last_version block
     <= latestVersionOf versionOf block (presentOf block) + 1 ->
   fillBlockTransactions versionOf getTransactions w block
   = (Ok (withTransactions block (presentOf block)), [])).
Proof.
  unfold fillBlockTransactions. split; intros W; rewrite W; [ reflexivity | ].
  intros Near. fold (presentOf block).
  destruct (Z.eqb_spec (latestVersionOf versionOf block (presentOf block))
              (last_version block)) as [Heq | Hne]; [ reflexivity | ].
  rewrite pageRequests_done by exact Near. simpl.
  unfold withTransactions. rewrite app_nil_r. reflexivity.
Qed.

(** X13. When transactions are missing, [fillBlockTransactions] makes all
    its page requests, whether or not some of them fail. If none fails it
    returns the block with the pages appended to its transactions in the
    order of the requests; if some fail it returns no block but the
    rejections, in the order of the requests. *)
Theorem fill_outcome (w : option bool) (block : Block Txn) :
  wanted w = true ->
  let latest := latestVersionOf versionOf block (presentOf block) in
  let plan := pageRequests (latest + 1) (last_version block) in
  let answers := map (fun p => getTransactions (fst p) (snd p)) plan in
  latest <> last_version block ->
  snd (fillBlockTransactions versionOf getTransactions w block) = plan
  /\ (failuresOf answers = [] ->
      fst (fillBlockTransactions versionOf getTransactions w block)
      = Ok (withTransactions block
              (presentOf block ++ List.concat (map pageOf answers))))
  /\ (failuresOf answers <> [] ->
      fst (fillBlockTransactions versionOf getTransactions w block)
      = Err (failuresOf answers)).
Proof.
  intros W latest plan answers Hne.
  unfold fillBlockTransactions. rewrite W.
  fold (presentOf block). fold latest.
  destruct (Z.eqb_spec latest (last_version block)) as [? | _]; [ contradiction | ].
  fold plan. fold answers. rewrite settleAll_spec.
  destruct (failuresOf answers) as [|e errs]; simpl.
  - split; [ reflexivity | ]. split; [ reflexivity | congruence ].
  - split; [ reflexivity | ]. split; [ discriminate | reflexivity ].
Qed.

End Fill.

(** ** Concrete blocks *)

(** A node that answers every page with the versions asked for. *)
Definition honestNode (offset limit : Z) : Result string (list Z) :=
  Ok (versionsOf (offset, limit)).

(** A node that fails the page at offset 103. *)
Definition flakyNode (offset limit : Z) : Result string (list Z) :=
  if offset =? 103 then Err "too many requests"%string
  else Ok (versionsOf (offset, limit)).

(** Versions 0 to 250, of which the first three are present. *)
Definition partialBlock : Block Z :=
  {| first_version := 0; last_version := 250; transactions := Some [0; 1; 2] |}.

(** A block of one version, without its transaction. *)
Definition singleBlock : Block Z :=
  {| first_version := 10; last_version := 10; transactions := None |}.

Lemma page_request_bounds_witness :
  In (103, 100) (pageRequests 3 250)
  /\ 3 <= 103 < 250
  /\ (103 - 3) mod 100 = 0
  /\ 100 = Z.min 100 (250 - 103 + 1)
  /\ 2 <= 100 <= 100.
Proof.
  assert (In (103, 100) (pageRequests 3 250)) as H
      by (vm_compute; right; left; reflexivity).
  split; [ exact H | exact (page_request_bounds _ _ _ _ H) ].
Defined.

Lemma fill_requests_witness :
  flat_map versionsOf
    (snd (fillBlockTransactions (@Some Z) honestNode (Some true) partialBlock))
  = versionsOf (3, 248).
Proof.
  apply (@fill_requests Z (@Some Z) string honestNode (Some true) partialBlock).
  reflexivity.
Defined.

Lemma fill_nothing_to_fetch_witness :
  fillBlockTransactions (@Some Z) honestNode (Some true) singleBlock
  = (Ok (withTransactions singleBlock []), []).
Proof.
  apply (proj2 (@fill_nothing_to_fetch Z (@Some Z) string honestNode
                  (Some true) singleBlock));
    [ reflexivity | vm_compute; discriminate ].
Defined.

Lemma fill_outcome_witness :
  fst (fillBlockTransactions (@Some Z) flakyNode (Some true) partialBlock)
  = Err ["too many requests"%string]
  /\ snd (fillBlockTransactions (@Some Z) flakyNode (Some true) partialBlock)
     = [(3, 100); (103, 100); (203, 48)].
Proof.
  destruct (@fill_outcome Z (@Some Z) string flakyNode (Some true) partialBlock
              eq_refl ltac:(vm_compute; discriminate)) as (Plan & _ & Failed).
  split.
  - rewrite Failed; [ vm_compute; reflexivity | vm_compute; discriminate ].
  - rewrite Plan. vm_compute. reflexivity.
Defined.

End BlocksFacts.

(* ------------------------------------------------------------------ *)

Module FaucetFacts.

Import Transaction TransactionFacts WaitFacts Faucet.
Local Open Scope string_scope.
Local Open Scope list_scope.
Local Open Scope float_scope.

Section Properties.

Variable D : float.

(** The options [fundAccount] hands to [waitForTransaction]. *)
Definition waitOptions (options : option WaitForTransactionOptions)
  : option WaitForTransactionOptions :=
  Some {| opt_timeoutSecs := Some (fundTimeout D options);
          opt_checkSuccess := fundCheckSuccess options |}.

(** X14. For [fundAccount] a timeout of 0 seconds (as any falsy number:
    0, -0, NaN) is no timeout given: it waits with the default timeout,
    and behaves in every respect as if [timeoutSecs] had been left out
    (whereas [waitForTransaction] itself takes 0 as it is). *)
Theorem fund_zero_timeout_is_default
    (env : Env) (fuel : nat) (t : float) (checkSuccess : option bool) :
  falsy t = true ->
  fundTimeout D (Some {| opt_timeoutSecs := Some t;
                         opt_checkSuccess := checkSuccess |}) = D
  /\ fundAccount D env fuel
       (Some {| opt_timeoutSecs := Some t; opt_checkSuccess := checkSuccess |})
     = fundAccount D env fuel
         (Some {| opt_timeoutSecs := None; opt_checkSuccess := checkSuccess |})
  /\ timeoutSecsOf D (Some {| opt_timeoutSecs := Some t;
                              opt_checkSuccess := checkSuccess |}) = t.
Proof.
  intros Z0.
  assert (fundTimeout D (Some {| opt_timeoutSecs := Some t;
                                 opt_checkSuccess := checkSuccess |}) = D) as T
      by (simpl; rewrite Z0; reflexivity).
  split; [ exact T | split; [ | reflexivity ] ].
  unfold fundAccount. rewrite T. reflexivity.
Qed.


End Properties.

(** ** Concrete runs *)

Definition fundedAndExecuted : Env :=
  {| addressText := Account.Ok "0x1";
     txn_hashes := Account.Ok ["0xabc"];
     transport := transportExecuted |}.

Lemma fund_zero_timeout_is_default_witness :
  fundTimeout 20 (Some {| opt_timeoutSecs := Some 0; opt_checkSuccess := None |})
  = 20
  /\ fundAccount 20 fundedAndExecuted 5
       (Some {| opt_timeoutSecs := Some 0; opt_checkSuccess := None |})
     = fundAccount 20 fundedAndExecuted 5
         (Some {| opt_timeoutSecs := None; opt_checkSuccess := None |})
  /\ timeoutSecsOf 20 (Some {| opt_timeoutSecs := Some 0;
                               opt_checkSuccess := None |}) = 0.
Proof.
  apply (@fund_zero_timeout_is_default 20 fundedAndExecuted 5 0 None).
  reflexivity.
Defined.


End FaucetFacts.

(* ------------------------------------------------------------------ *)

Module AccountMoreFacts.

Import Account AccountFacts.
Local Open Scope string_scope.
Local Open Scope list_scope.

Section Properties.

Context {C : Collaborators}.
Variable AccountAddress_from : AccountAddressInput -> Result Failure AccountAddress.

(** The account's address is the one its public key derives, and so is the
    address derived from the public key of every authenticator it makes. *)
Definition Consistent (acct : SingleKeyAccount) : Prop :=
  accountAddress acct = derivedAddress (authKey (publicKey acct))
  /\ forall transaction auth,
       signTransactionWithAuthenticator acct transaction = Ok auth ->
       derivedAddress (authKey (public_key auth)) = accountAddress acct.

Lemma new_without_address (k : PrivateKeyInput) :
  new_SingleKeyAccount AccountAddress_from
    {| arg_privateKey := k; arg_address := None |}
  = Ok {| privateKey := k;
          publicKey := AnyPublicKey_new (PrivateKey_publicKey k);
          accountAddress := derivedFrom k;
          signingScheme := SchemeSingleKey |}.
Proof. reflexivity. Qed.

Lemma derived_Consistent (k : PrivateKeyInput) :
  Consistent {| privateKey := k;
                publicKey := AnyPublicKey_new (PrivateKey_publicKey k);
                accountAddress := derivedFrom k;
                signingScheme := SchemeSingleKey |}.
Proof.
  split; [ reflexivity | ].
  intros transaction auth H.
  unfold signTransactionWithAuthenticator, bind in H.
  destruct (signTransaction _ transaction); [ | discriminate ].
  injection H as <-. reflexivity.
Qed.

(** X16. Every account that [generate] or [fromDerivationPath] returns
    lives at the address derived from its own public key, uses the
    SingleKey scheme, and signs transactions into authenticators whose
    public key derives that same address. *)
Theorem factory_accounts_are_consistent :
  (forall rnd scheme acct calls,
      generate AccountAddress_from rnd scheme = (Ok acct, calls) ->
      Consistent acct /\ signingScheme acct = SchemeSingleKey)
  /\
  (forall scheme path mnemonic acct calls,
      fromDerivationPath AccountAddress_from scheme path mnemonic
      = (Ok acct, calls) ->
      Consistent acct /\ signingScheme acct = SchemeSingleKey).
Proof.
  split.
  - intros rnd scheme acct calls H. unfold generate in H.
    destruct (schemeOrDefault scheme); try discriminate;
      rewrite new_without_address in H; injection H as <- _;
      (split; [ apply derived_Consistent | reflexivity ]).
  - intros scheme path mnemonic acct calls H. unfold fromDerivationPath in H.
    destruct (schemeOrDefault scheme); try discriminate.
    + destruct (Ed25519PrivateKey_fromDerivationPath path mnemonic);
        simpl in H; [ | discriminate ].
      rewrite new_without_address in H. injection H as <- _.
      split; [ apply derived_Consistent | reflexivity ].
    + destruct (Secp256k1PrivateKey_fromDerivationPath path mnemonic);
        simpl in H; [ | discriminate ].
      rewrite new_without_address in H. injection H as <- _.
      split; [ apply derived_Consistent | reflexivity ].
Qed.

(** The key [fromDerivationPath] derives for a supported scheme. *)
Definition derivedKey (scheme : SigningSchemeInput) (path mnemonic : string)
  : Result Failure PrivateKeyInput :=
  match scheme with
  | Secp256k1Ecdsa =>
      bind (Secp256k1PrivateKey_fromDerivationPath path mnemonic)
           (fun k => Ok (Secp256k1Key k))
  | _ =>
      bind (Ed25519PrivateKey_fromDerivationPath path mnemonic)
           (fun k => Ok (Ed25519Key k))
  end.

(** X17. For Ed25519, Secp256k1Ecdsa and no scheme given (which is
    Ed25519), [generate] never throws, and [fromDerivationPath] returns an
    account of the derived key whenever the key derivation succeeds, and
    otherwise throws exactly what the key derivation threw; each makes one
    key-producing call. Neither ever consults [AccountAddress.from]. *)
Theorem factories_on_supported_schemes
    (scheme : option SigningSchemeInput) (rnd : Entropy)
    (path mnemonic : string) :
  scheme = None \/ scheme = Some Ed25519 \/ scheme = Some Secp256k1Ecdsa ->
  (exists acct,
      generate AccountAddress_from rnd scheme
      = (Ok acct, [Generated (schemeOrDefault scheme)])
      /\ privateKey acct
         = match schemeOrDefault scheme with
           | Secp256k1Ecdsa => Secp256k1Key (Secp256k1PrivateKey_generate rnd)
           | _ => Ed25519Key (Ed25519PrivateKey_generate rnd)
           end)
  /\
  snd (fromDerivationPath AccountAddress_from scheme path mnemonic)
  = [Derived (schemeOrDefault scheme) path mnemonic]
  /\
  (forall k,
      derivedKey (schemeOrDefault scheme) path mnemonic = Ok k ->
      exists acct,
        fst (fromDerivationPath AccountAddress_from scheme path mnemonic)
        = Ok acct /\ privateKey acct = k)
  /\
  (forall e,
      fst (fromDerivationPath AccountAddress_from scheme path mnemonic) = Err e ->
      exists f,
        e = Propagated f
        /\ derivedKey (schemeOrDefault scheme) path mnemonic = Err f)
  /\
  (forall other : AccountAddressInput -> Result Failure AccountAddress,
      generate other rnd scheme = generate AccountAddress_from rnd scheme
      /\ fromDerivationPath other scheme path mnemonic
         = fromDerivationPath AccountAddress_from scheme path mnemonic).
Proof.
  intros Supported.
  assert (schemeOrDefault scheme = Ed25519
          \/ schemeOrDefault scheme = Secp256k1Ecdsa) as [S | S]
    by (destruct Supported as [-> | [-> | ->]]; simpl; auto).
  - unfold generate, fromDerivationPath, derivedKey. rewrite S.
    split; [ eexists; split; reflexivity | ].
    split; [ reflexivity | ].
    cbn [fst].
    destruct (Ed25519PrivateKey_fromDerivationPath path mnemonic) as [a | f];
      cbn [lift bind].
    + split; [ | split ].
      * intros k Hk. injection Hk as <-. eexists. split; reflexivity.
      * intros e He. rewrite new_without_address in He. discriminate.
      * intros other. split; reflexivity.
    + split; [ | split ].
      * intros k Hk. discriminate.
      * intros e He. injection He as <-. exists f. split; reflexivity.
      * intros other. split; reflexivity.
  - unfold generate, fromDerivationPath, derivedKey. rewrite S.
    split; [ eexists; split; reflexivity | ].
    split; [ reflexivity | ].
    cbn [fst].
    destruct (Secp256k1PrivateKey_fromDerivationPath path mnemonic) as [a | f];
      cbn [lift bind].
    + split; [ | split ].
      * intros k Hk. injection Hk as <-. eexists. split; reflexivity.
      * intros e He. rewrite new_without_address in He. discriminate.
      * intros other. split; reflexivity.
    + split; [ | split ].
      * intros k Hk. discriminate.
      * intros e He. injection He as <-. exists f. split; reflexivity.
      * intros other. split; reflexivity.
Qed.

(** X18. [fromEd25519Account] never derives an address: the account it
    returns has the address [AccountAddress.from] gives for the legacy
    account's address object, the wrapped public key of the legacy private
    key, and signs with that key; it throws only what [AccountAddress.from]
    throws. *)
Theorem legacy_account_keeps_its_address (account : Ed25519Account) :
  (forall acct,
      fromEd25519Account AccountAddress_from account = Ok acct ->
      AccountAddress_from (AddressObject (legacy_accountAddress account))
      = Ok (accountAddress acct)
      /\ privateKey acct = Ed25519Key (legacy_privateKey account)
      /\ publicKey acct
         = AnyPublicKey_new
             (Ed25519PrivateKey_publicKey (legacy_privateKey account))
      /\ forall message,
           sign acct message
           = bind (lift (Ed25519PrivateKey_sign (legacy_privateKey account) message))
                  (fun s => Ok (AnySignature_new s)))
  /\
  (forall e,
      fromEd25519Account AccountAddress_from account = Err e ->
      exists f,
        e = Propagated f /\
        AccountAddress_from (AddressObject (legacy_accountAddress account))
        = Err f).
Proof.
  unfold fromEd25519Account, new_SingleKeyAccount, bind, lift. simpl.
  destruct (AccountAddress_from (AddressObject (legacy_accountAddress account)))
    as [a | f]; split.
  - intros acct H. injection H as <-. simpl. auto.
  - intros e H. discriminate.
  - intros acct H. discriminate.
  - intros e H. injection H as <-. eauto.
Qed.

End Properties.

(** ** On the stand-in collaborators *)

Lemma factory_accounts_are_consistent_witness :
  exists acct calls,
    @generate standIn standInFrom 5%N None = (Ok acct, calls)
    /\ @Consistent standIn acct
    /\ signingScheme acct = SchemeSingleKey.
Proof.
  eexists. eexists. split; [ reflexivity | ].
  apply (proj1 (@factory_accounts_are_consistent standIn standInFrom)
           5%N None _ _ eq_refl).
Defined.

Lemma factories_on_supported_schemes_witness :
  exists acct,
    @generate standIn standInFrom 5%N (Some Secp256k1Ecdsa)
    = (Ok acct, [Generated Secp256k1Ecdsa])
    /\ privateKey acct = @Secp256k1Key standIn 5%N.
Proof.
  apply (proj1 (@factories_on_supported_schemes standIn standInFrom
                  (Some Secp256k1Ecdsa) 5%N "m/44'/637'/0'/0/0" "abandon"
                  ltac:(right; right; reflexivity))).
Defined.

Definition standInLegacy : @Ed25519Account standIn :=
  @mkLegacy standIn 5%N 42%N.

Lemma legacy_account_keeps_its_address_witness :
  exists acct,
    @fromEd25519Account standIn standInFrom standInLegacy = Ok acct
    /\ accountAddress acct = 42%N
    /\ standInFrom (AddressObject (42%N : @AccountAddress standIn))
       = Ok (accountAddress acct).
Proof.
  eexists. split; [ reflexivity | ]. split; [ reflexivity | ].
  apply (proj1 (@legacy_account_keeps_its_address standIn standInFrom standInLegacy)
           _ eq_refl).
Defined.

End AccountMoreFacts.
